(** * Phi-3 as a relevance judge: the evaluator, its vote and its prompt helpers

    A shallow embedding of the notebook's Python code:
    - [Py]: the pieces of the Python runtime the code calls
      ([str.join], [collections.Counter], true division and [round],
      [str.format], generators that may raise);
    - [Re]: [re.search] with [re.IGNORECASE] on the patterns the evaluator
      builds from literal response types;
    - [Phi3Evaluator]: the class of that name, over any function that plays
      the compiling and searching of [re] and any text-generation pipeline;
    - [Prompts]: the prompt templates, [POOL], [generate_prompts],
      [generate_data] and the loop that collects the judgments;
    - [Playground]: the prompt of the question-answering clients.

    A Python [str] is modelled as the [string] of its UTF-8 bytes, so an
    ASCII character is one [ascii]; Python integers as [Z];
    Python floats as binary64 primitive floats; dicts as [gmap], except the
    [Counter], whose order matters and which is an association list. *)

From Stdlib Require Import ZArith Floats Uint63 Ascii String.
From stdpp Require Import base list strings gmap.

Set Warnings "-inexact-float".

(** ** The Python runtime *)

Module Py.

(** Exceptions the modelled code can raise. *)
Inductive exn : Set :=
| AssertionError
| KeyError
| ValueError
| IndexError
| ZeroDivisionError
| re_error
| Unmodelled.  (* not a Python exception: the input leaves the fragment of
                  [str.format] or of [re] modelled below *)

(** The result of evaluating an expression: a value or a raised exception. *)
Inductive outcome (A : Type) : Type :=
| Ok (a : A)
| Raise (e : exn).
Arguments Ok {A} a.
Arguments Raise {A} e.

#[global] Instance outcome_ret : MRet outcome := λ A a, Ok a.

#[global] Instance outcome_fmap : FMap outcome := λ A B f o,
  match o with
  | Ok a => Ok (f a)
  | Raise e => Raise e
  end.

#[global] Instance outcome_bind : MBind outcome := λ A B k o,
  match o with
  | Ok a => k a
  | Raise e => Raise e
  end.

(** A generator run to its end: the values it yielded, in order, and the
    exception that ended it, if one did. *)
Definition run (A : Type) : Type := (list A * option exn)%type.

(** [for x in l: y = body(x); yield y], where [body] may raise. *)
Fixpoint gen_for {A B} (body : A → outcome B) (l : list A) : run B :=
  match l with
  | [] => ([], None)
  | x :: xs =>
      match body x with
      | Raise e => ([], Some e)
      | Ok y => let '(ys, r) := gen_for body xs in (y :: ys, r)
      end
  end.

(** [zip(a, b)] of two generators, itself run to its end: [a] is advanced
    first, then [b]; the first one to stop or raise ends the zip. *)
Fixpoint zip_runs {A B} (la : list A) (ea : option exn)
    (lb : list B) (eb : option exn) : run (A * B) :=
  match la with
  | [] => ([], ea)
  | x :: xs =>
      match lb with
      | [] => ([], eb)
      | y :: ys => let '(ps, r) := zip_runs xs ea ys eb in ((x, y) :: ps, r)
      end
  end.

Definition zip {A B} (a : run A) (b : run B) : run (A * B) :=
  zip_runs a.1 a.2 b.1 b.2.

(** [sep.join(l)] *)
Fixpoint str_join (sep : string) (l : list string) : string :=
  match l with
  | [] => ""
  | [x] => x
  | x :: xs => x +:+ sep +:+ str_join sep xs
  end.

(** *** collections.Counter

    A [Counter] is a dict, so it keeps its keys in insertion order; counting
    an element again updates its entry in place. *)
Definition counter : Type := list (string * Z).

Fixpoint counter_incr (k : string) (c : counter) : counter :=
  match c with
  | [] => [(k, 1%Z)]
  | (k', n) :: c' =>
      if String.eqb k k' then (k', (n + 1)%Z) :: c'
      else (k', n) :: counter_incr k c'
  end.

Definition Counter (l : list string) : counter :=
  fold_left (λ c k, counter_incr k c) l [].

(** [max(items, key=itemgetter(1))] started at [best]: an item replaces the
    best one only when its count is strictly greater. *)
Fixpoint max_by_count (best : string * Z) (items : counter) : string * Z :=
  match items with
  | [] => best
  | x :: xs =>
      if (best.2 <? x.2)%Z then max_by_count x xs else max_by_count best xs
  end.

(** [c.most_common(1)], which is [heapq.nlargest(1, c.items(), key=count)],
    which for one item is [max] over the items in dict order. *)
Definition most_common_1 (c : counter) : counter :=
  match c with
  | [] => []
  | x :: xs => [max_by_count x xs]
  end.

(** [l[0]] *)
Definition item0 {A} (l : list A) : outcome A :=
  match l with
  | [] => Raise IndexError
  | x :: _ => Ok x
  end.

(** *** Floats *)

(** [float(z)], exact for [|z| <= 2^53]. *)
Definition float_of_Z (z : Z) : float :=
  if (z <? 0)%Z then PrimFloat.opp (PrimFloat.of_uint63 (Uint63.of_Z (- z)))
  else PrimFloat.of_uint63 (Uint63.of_Z z).

(** [a / b] on two ints: the binary64 nearest to the quotient (for operands
    up to [2^53] in magnitude, which bounds every list length). *)
Definition truediv (a b : Z) : outcome float :=
  if (b =? 0)%Z then Raise ZeroDivisionError
  else Ok (PrimFloat.div (float_of_Z a) (float_of_Z b)).

(** Nearest integer to [num / den], ties to the even one ([den > 0]). *)
Definition round_half_even (num den : Z) : Z :=
  let q := (num / den)%Z in
  let r := (num mod den)%Z in
  if (2 * r <? den)%Z then q
  else if (den <? 2 * r)%Z then (q + 1)%Z
  else if Z.even q then q else (q + 1)%Z.

(** [round(x, ndigits)] on a float: the exact binary value of [x] is rounded
    half-even to [ndigits] decimals, and the decimal is read back as the
    nearest binary64 (the division below is that nearest float as long as
    the scaled value is at most [2^53], as it is for the shares in [0, 1]
    rounded here).  Zeros, infinities, NaN and integral values of magnitude
    [2^52] and more come back unchanged. *)
Definition round (x : float) (ndigits : nat) : float :=
  match Prim2SF x with
  | S754_finite s m e =>
      if (0 <=? e)%Z then x
      else
        let scale := (10 ^ Z.of_nat ndigits)%Z in
        let k := round_half_even (Z.pos m * scale) (2 ^ (- e)) in
        let r := PrimFloat.div (float_of_Z k) (float_of_Z scale) in
        if s then PrimFloat.opp r else r
  | _ => x
  end.

(** *** str.format

    [template.format] called with keyword arguments [kwargs] whose values
    are strings, in one pass from the left: doubled braces are literal
    braces, and [{name}] is replaced by [kwargs[name]].  A replacement field
    with an attribute, an index, a conversion or a format spec is outside
    the model. *)

Definition is_digit (c : ascii) : bool :=
  let n := nat_of_ascii c in (48 <=? n)%nat && (n <=? 57)%nat.

Definition field_special (c : ascii) : bool :=
  existsb (Ascii.eqb c) (list_ascii_of_string ".[!:{").

(** The value of the field [name]: an empty or numeric name is positional,
    and [format] is called without positional arguments. *)
Definition lookup_field (kwargs : gmap string string) (name : string)
    : outcome string :=
  if forallb is_digit (list_ascii_of_string name) then Raise IndexError
  else match kwargs !! name with
       | Some v => Ok v
       | None => Raise KeyError
       end.

(** [field] is [Some name] inside a replacement field whose name so far is
    [name], and [None] in literal text. *)
Fixpoint format_from (kwargs : gmap string string) (field : option string)
    (s : string) : outcome string :=
  match s with
  | EmptyString =>
      match field with
      | None => Ok ""
      | Some _ => Raise ValueError
      end
  | String c r =>
      match field with
      | None =>
          if Ascii.eqb c "{" then
            match r with
            | EmptyString => Raise ValueError
            | String c' r' =>
                if Ascii.eqb c' "{" then String "{" <$> format_from kwargs None r'
                else format_from kwargs (Some "") r
            end
          else if Ascii.eqb c "}" then
            match r with
            | EmptyString => Raise ValueError
            | String c' r' =>
                if Ascii.eqb c' "}" then String "}" <$> format_from kwargs None r'
                else Raise ValueError
            end
          else String c <$> format_from kwargs None r
      | Some name =>
          if Ascii.eqb c "}" then
            v ← lookup_field kwargs name;
            String.append v <$> format_from kwargs None r
          else if field_special c then Raise Unmodelled
          else format_from kwargs (Some (name +:+ String c "")) r
      end
  end.

Definition str_format (template : string) (kwargs : gmap string string)
    : outcome string :=
  format_from kwargs None template.

(** [{key: d[key] for key in keys}], added to [acc]. *)
Fixpoint dict_of_keys (d : gmap string string) (keys : list string)
    (acc : gmap string string) : outcome (gmap string string) :=
  match keys with
  | [] => Ok acc
  | key :: keys' =>
      match d !! key with
      | Some v => dict_of_keys d keys' (<[key := v]> acc)
      | None => Raise KeyError
      end
  end.

(** [all(key in d for key in keys)] *)
Definition all_in (d : gmap string string) (keys : list string) : bool :=
  forallb (λ key, bool_decide (is_Some (d !! key))) keys.

End Py.

(** ** Regular expressions: [re.search(pattern, text, re.IGNORECASE)]

    [re.search] first compiles its pattern, which raises [re.error] for a
    string that is not a regular expression, and then searches the text.
    The evaluator only ever searches with the pattern
    ["(" + "|".join(response_types) + ")"].  The engine below covers the
    patterns of this shape whose alternatives are ASCII literals, free of
    regex metacharacters: the search tries every start position from the
    left, and at each one the alternatives in order; the result is the
    matched text ([Match.group()]) or [None].

    With [re.IGNORECASE] on a [str] pattern a literal character matches the
    characters of the text that lower-case to it.  For an ASCII letter these
    are its two cases and, outside ASCII, the Kelvin sign U+212A for [k] and
    the dotted capital U+0130 for [i]; the compiler adds the characters that
    share its upper case, the long s U+017F for [s] and the dotless U+0131
    for [i].  A character without case matches itself only.  The text being
    held as UTF-8, those four letters are the byte sequences below.

    The engine also knows one kind of pattern that does not compile: a group
    that opens with the repeat [*] or [+] has nothing to repeat.  Any other
    pattern is outside the model. *)

Module Re.
Import Py.

Definition is_ascii (c : ascii) : bool := (nat_of_ascii c <? 128)%nat.

Definition metachar (c : ascii) : bool :=
  existsb (Ascii.eqb c) (list_ascii_of_string ".^$*+?{}[]\|()").

Definition literal (s : string) : bool :=
  forallb (λ c, is_ascii c && negb (metachar c)) (list_ascii_of_string s).

(** The pieces of [s] between the occurrences of [sep]. *)
Fixpoint split_on (sep : ascii) (s : string) : list string :=
  match s with
  | EmptyString => [""]
  | String c r =>
      if Ascii.eqb c sep then "" :: split_on sep r
      else match split_on sep r with
           | [] => [String c ""]
           | p :: ps => String c p :: ps
           end
  end.

(** [s] without its last character, which has to be [")"]. *)
Fixpoint strip_close (s : string) : option string :=
  match s with
  | EmptyString => None
  | String c EmptyString => if Ascii.eqb c ")" then Some "" else None
  | String c r => String c <$> strip_close r
  end.

(** The alternatives of a pattern [(a1|a2|...|an)] of literals; [None] for
    any other pattern. *)
Definition alternatives (pattern : string) : option (list string) :=
  match pattern with
  | EmptyString => None
  | String c r =>
      if Ascii.eqb c "(" then
        match strip_close r with
        | Some body =>
            let alts := split_on "|" body in
            if forallb literal alts then Some alts else None
        | None => None
        end
      else None
  end.

(** A pattern that opens a group and goes on with [*] or [+]: the parser
    raises "nothing to repeat" there, whatever follows. *)
Definition nothing_to_repeat (pattern : string) : bool :=
  match pattern with
  | String c (String r _) =>
      Ascii.eqb c "(" && (Ascii.eqb r "*" || Ascii.eqb r "+")
  | _ => false
  end.

Definition lower (c : ascii) : ascii :=
  let n := nat_of_ascii c in
  if (65 <=? n)%nat && (n <=? 90)%nat then ascii_of_nat (n + 32) else c.

(** Two characters are the same up to the case of the ASCII letters. *)
Definition chr_ieq (a b : ascii) : bool := Ascii.eqb (lower a) (lower b).

(** The four letters outside ASCII, in UTF-8. *)
Definition long_s : string :=
  String (ascii_of_nat 197) (String (ascii_of_nat 191) "").
Definition kelvin_sign : string :=
  String (ascii_of_nat 226) (String (ascii_of_nat 132) (String (ascii_of_nat 170) "")).
Definition dotted_capital_i : string :=
  String (ascii_of_nat 196) (String (ascii_of_nat 176) "").
Definition dotless_i : string :=
  String (ascii_of_nat 196) (String (ascii_of_nat 177) "").

(** The letters outside ASCII that the pattern character [a] matches. *)
Definition other_letters (a : ascii) : list string :=
  if Ascii.eqb (lower a) "s" then [long_s]
  else if Ascii.eqb (lower a) "k" then [kelvin_sign]
  else if Ascii.eqb (lower a) "i" then [dotted_capital_i; dotless_i]
  else [].

(** [text] without its prefix [p], if it starts with [p]. *)
Fixpoint strip_prefix (p text : string) : option string :=
  match p with
  | EmptyString => Some text
  | String a p' =>
      match text with
      | EmptyString => None
      | String b text' => if Ascii.eqb a b then strip_prefix p' text' else None
      end
  end.

(** The first of the letters [ps] that [text] starts with, and the rest of
    the text. *)
Fixpoint match_letters (ps : list string) (text : string)
    : option (string * string) :=
  match ps with
  | [] => None
  | p :: ps' =>
      match strip_prefix p text with
      | Some rest => Some (p, rest)
      | None => match_letters ps' text
      end
  end.

(** The character of [text] that the pattern character [a] matches at its
    start, and the rest of the text. *)
Definition match_char (a : ascii) (text : string) : option (string * string) :=
  match text with
  | EmptyString => None
  | String b rest =>
      if chr_ieq a b then Some (String b "", rest)
      else match_letters (other_letters a) text
  end.

(** The prefix of [text] that literal [lit] matches, if it does. *)
Fixpoint match_literal (lit text : string) : option string :=
  match lit with
  | EmptyString => Some ""
  | String a lit' =>
      match match_char a text with
      | Some (piece, rest) => String.append piece <$> match_literal lit' rest
      | None => None
      end
  end.

(** The first alternative, in pattern order, that matches at the start. *)
Fixpoint match_alternatives (alts : list string) (text : string)
    : option string :=
  match alts with
  | [] => None
  | a :: alts' =>
      match match_literal a text with
      | Some m => Some m
      | None => match_alternatives alts' text
      end
  end.

(** The leftmost match: start positions [0 .. len(text)] in turn. *)
Fixpoint search_alternatives (alts : list string) (text : string)
    : option string :=
  match match_alternatives alts text with
  | Some m => Some m
  | None =>
      match text with
      | EmptyString => None
      | String _ rest => search_alternatives alts rest
      end
  end.

(** Compiling with [re.IGNORECASE]: the search of the compiled pattern,
    [re.error], or [Unmodelled] for a pattern the engine does not cover. *)
Definition compile_ignorecase (pattern : string)
    : outcome (string → option string) :=
  if nothing_to_repeat pattern then Raise re_error
  else match alternatives pattern with
       | Some alts => Ok (search_alternatives alts)
       | None => Raise Unmodelled
       end.

Definition search_ignorecase (pattern text : string) : outcome (option string) :=
  search ← compile_ignorecase pattern; mret (search text).

(** [m] occurs in [text]. *)
Definition occurs_in (m text : string) : Prop :=
  ∃ pre post, text = pre +:+ m +:+ post.

End Re.

(** ** The evaluator *)

Module Phi3Evaluator.
Import Py.

(** Values of the keyword arguments handed to the text-generation pipeline. *)
Inductive pyval : Type :=
| PBool (b : bool)
| PInt (z : Z)
| PFloat (f : float).

(** A chat message [{"role": ..., "content": ...}]. *)
Record message : Type := { role : string; content : string }.

(** One generation [{"generated_text": ...}]. *)
Record generation : Type := { generated_text : string }.

(** What the pipeline returns for one input: a dict, or a list of dicts. *)
Inductive pipe_output : Type :=
| One (item : generation)
| Many (items : list generation).

(** The text-generation pipeline, an external call: inputs and keyword
    arguments in, one output per input out. *)
Definition pipeline_t : Type :=
  list (list message) → gmap string pyval → list pipe_output.

(** A pipeline that answers each input on its own, through [oracle]. *)
Definition pipeline_of (oracle : gmap string pyval → list message → pipe_output)
    : pipeline_t :=
  λ inputs gen_args, oracle gen_args <$> inputs.

(** The fields [__init__] sets. *)
Record t : Type := {
  pipeline : pipeline_t;
  regex_str : option string;
  _temperature : float;
  _iterations : Z
}.

(** [pipe] stands for the pipeline [__init__] builds from
    [model_name_or_path]. *)
Definition __init__ (pipe : pipeline_t) (response_types : list string)
    (iterations : Z) (temperature : float) : t :=
  {| pipeline := pipe;
     regex_str :=
       match response_types with
       | [] => None
       | _ => Some ("(" +:+ str_join "|" response_types +:+ ")")
       end;
     _temperature := temperature;
     _iterations := iterations |}.

Definition _get_generation_args (self : t) : gmap string pyval :=
  if PrimFloat.ltb 0 (_temperature self) then
    list_to_map
      [("return_full_text", PBool false);
       ("temperature", PFloat (_temperature self));
       ("do_sample", PBool true);
       ("num_return_sequences", PInt (_iterations self));
       ("num_beams", PInt (2 * _iterations self))]
  else
    list_to_map
      [("return_full_text", PBool false);
       ("do_sample", PBool false);
       ("num_return_sequences", PInt 1)].

Section Search.

(** [re_compile pattern] is what [re.search(pattern, text, re.IGNORECASE)]
    does before it looks at the text: it raises [re.error] for a pattern
    that is not a regular expression, and it gives the search otherwise,
    which maps a text to the matched text ([Match.group()]) or to [None].
    The evaluator is defined over any such function; [Re.compile_ignorecase]
    is the one used on concrete inputs. *)
Variable re_compile : string → outcome (string → option string).

Definition re_search (pattern text : string) : outcome (option string) :=
  search ← re_compile pattern; mret (search text).

Definition _postprocess_output (self : t) (llm_out : string) : outcome string :=
  match regex_str self with
  | None | Some EmptyString => mret llm_out   (* [not self.regex_str] *)
  | Some pattern =>
      found ← re_search pattern llm_out;
      match found with
      | Some group => mret group
      | None => mret "Unparsable"
      end
  end.

(** The names of the loop body of [__call__]. *)
Definition llm_outputs (output : pipe_output) : list string :=
  let output := match output with One item => [item] | Many items => items end in
  generated_text <$> output.

Definition parsed_outputs (self : t) (output : pipe_output)
    : outcome (list string) :=
  mapM (_postprocess_output self) (llm_outputs output).

Definition clean_outputs (self : t) (output : pipe_output)
    : outcome (list string) :=
  filter (λ output, output ≠ "Unparsable") <$> parsed_outputs self output.

(** The loop body: what is yielded for one output of the pipeline. *)
Definition judge (self : t) (output : pipe_output)
    : outcome (list string * string * float) :=
  clean ← clean_outputs self output;
  match clean with
  | _ :: _ =>
      let winning_label := most_common_1 (Counter clean) in
      w ← item0 winning_label;
      agreement ← truediv w.2 (Z.of_nat (length clean));
      mret (llm_outputs output, w.1, round agreement 2)
  | [] => mret (llm_outputs output, "Unparsable", (-1)%float)
  end.

(** The pattern of the evaluator, if it has one, compiles. *)
Definition pattern_compiles (self : t) : Prop :=
  match regex_str self with
  | None | Some EmptyString => True
  | Some pattern => ∃ search, re_compile pattern = Ok search
  end.

(** The pieces of [__call__] before its loop: the keyword arguments, the
    chat inputs, and what the pipeline returns for them. *)
Definition gen_args (self : t) (max_output_tokens batch_size : Z)
    : gmap string pyval :=
  list_to_map [("batch_size", PInt batch_size);
               ("max_new_tokens", PInt max_output_tokens)]
  ∪ _get_generation_args self.

Definition inputs_for_pipeline (prompts : list string) : list (list message) :=
  (λ prompt, [{| role := "user"; content := prompt |}]) <$> prompts.

Definition pipeline_outputs (self : t) (prompts : list string)
    (max_output_tokens batch_size : Z) : list pipe_output :=
  pipeline self (inputs_for_pipeline prompts)
    (gen_args self max_output_tokens batch_size).

(** [prompts] is any iterable, here a generator run to its end: the list
    comprehension drains it before the pipeline is called, so an exception
    of [prompts] ends [__call__] before it yields. *)
Definition __call__ (self : t) (prompts : run string)
    (max_output_tokens batch_size : Z)
    : run (list string * string * float) :=
  match prompts.2 with
  | Some e => ([], Some e)
  | None =>
      gen_for (judge self)
        (pipeline_outputs self prompts.1 max_output_tokens batch_size)
  end.

End Search.

End Phi3Evaluator.

(** ** Prompts, the task table and the run over the data *)

Module Prompts.
Import Py.

Definition nl : string := String (ascii_of_nat 10) "".
Definition dq : string := String (ascii_of_nat 34) "".

Definition QA_POINTWISE_RELEVANCE_PROMPT_TEMPLATE : string :=
  "You are an expert in information retrieval and your task is to estimate the relevance of a retrieved document to a" +:+
  " query." +:+ nl +:+
  "More specifically, you will be provided with two pieces of information:" +:+ nl +:+
  "- Query, which is the question we want to answer" +:+ nl +:+
  "- Retrieved Document, which is the document we want to evaluate." +:+ nl +:+ nl +:+
  "Your task is to predict " +:+ dq +:+ "Relevant" +:+ dq +:+ " if the Retrieved Document contains the information required to provide an " +:+
  "answer to the Query, otherwise you should print " +:+ dq +:+ "Not Relevant" +:+ dq +:+ " " +:+ nl +:+
  "#####" +:+ nl +:+
  "Here are your inputs:" +:+ nl +:+
  "Query: {query_text}" +:+ nl +:+
  "Retrieved Document: {retrieved_text}" +:+ nl +:+
  "#####" +:+ nl +:+ nl +:+
  "Take a step back and reflect carefully on how best to solve your task" +:+ nl +:+
  "You should provide your answer in the form of a boolean value: " +:+ dq +:+ "Relevant" +:+ dq +:+ " or " +:+ dq +:+ "Not Relevant" +:+ dq +:+ nl.

Definition CHAIN_OF_THOUGHT_PROMPT_TEMPLATE : string :=
  "You are an expert in information retrieval and your task is to decide if a retrieved " +:+
  "document is relevant to a query or not. You will be provided with two pieces of information:" +:+ nl +:+
  "- QUERY, which is a web search" +:+ nl +:+
  "- DOCUMENT, which is a web page snippet" +:+ nl +:+
  "Your task is to predict " +:+ dq +:+ "Relevant" +:+ dq +:+ " if the DOCUMENT contains the information required " +:+
  "to provide an answer to the QUERY, otherwise you should predict " +:+ dq +:+ "Not Relevant" +:+ dq +:+ "." +:+ nl +:+
  "Solve this task step by step and use the following examples for help." +:+ nl +:+ nl +:+
  "####" +:+ nl +:+
  "Example 1" +:+ nl +:+
  "QUERY: define interconnected" +:+ nl +:+
  "DOCUMENT: Matching (adjective) corresponding in pattern, colour, or design; complementary." +:+ nl +:+
  "Intent: The query is looking for the dictionary definition of the term " +:+ dq +:+ "interconnected" +:+ dq +:+ "." +:+ nl +:+
  "Key Information: The document provides a definition of the term " +:+ dq +:+ "matching" +:+ dq +:+ "." +:+ nl +:+
  "Explanation: The term " +:+ dq +:+ "matching" +:+ dq +:+ " is closely related to the word " +:+ dq +:+ "interconnected" +:+ dq +:+ ". However, the query is " +:+
  "asking for the dictionary definition of " +:+ dq +:+ "interconnected" +:+ dq +:+ ", not " +:+ dq +:+ "matching" +:+ dq +:+ "." +:+ nl +:+
  "Answer: " +:+ dq +:+ "Not Relevant" +:+ dq +:+ nl +:+ nl +:+
  "Example 2" +:+ nl +:+
  "QUERY: what are some good chocolate cake recipes" +:+ nl +:+
  "DOCUMENT: Here are some of the best chocolate cakes to make yourself." +:+ nl +:+
  "Intent: The query is looking for chocolate cake recipes." +:+ nl +:+
  "Key Information: The document provides a list of chocolate cakes you can make yourself." +:+ nl +:+
  "Explanation: The document provides information about chocolate cakes you can make yourself. This makes it " +:+
  "very likely that it provides their recipes as well." +:+ nl +:+
  "Answer: " +:+ dq +:+ "Relevant" +:+ dq +:+ nl +:+ nl +:+
  "Example 3" +:+ nl +:+
  "QUERY: enable parental controls on Netflix" +:+ nl +:+
  "DOCUMENT: Here's how to turn on parental controls on Amazon Prime Video:" +:+ nl +:+
  "Intent: The query is looking for instructions on how to enable parental controls on Netflix." +:+ nl +:+
  "Key Information: The document provides instructions on how to turn on parental controls on Amazon Prime Video." +:+ nl +:+
  "Explanation: The document provides instructions for how to turn on parental controls for Amazon Prime Video, " +:+
  "not Netflix." +:+ nl +:+
  "Answer: " +:+ dq +:+ "Not Relevant" +:+ dq +:+ nl +:+ nl +:+
  "####" +:+ nl +:+ nl +:+
  "To solve your task, first check if any of the examples are useful, then think carefully if " +:+
  "Key Information matches the Intent. Use the following format:" +:+ nl +:+
  "Intent: [the intent behind QUERY]" +:+ nl +:+
  "Key Information: [the key information contained in DOCUMENT]" +:+ nl +:+
  "Explanation: [your explanation]" +:+ nl +:+
  "Answer: [your answer]" +:+ nl +:+
  "[your answer] should be either " +:+ dq +:+ "Relevant" +:+ dq +:+ " or " +:+ dq +:+ "Not Relevant" +:+ dq +:+ "." +:+ nl +:+
  "Here are the QUERY and DOCUMENT for you to evaluate:" +:+ nl +:+
  "QUERY: {query_text}" +:+ nl +:+
  "DOCUMENT: {retrieved_text}" +:+ nl.

Definition QA_PAIRWISE_RELEVANCE_PROMPT_TEMPLATE : string :=
  "You are an expert in information retrieval and your task is to estimate the relevance of a retrieved document to a query." +:+ nl +:+
  "More specifically, you will be provided with three pieces of information:" +:+ nl +:+
  "- Query, which is the question we want to answer" +:+ nl +:+
  "- Positive Document, which is a document that contains the correct answer to the query" +:+ nl +:+
  "- Retrieved Document, which is the document we want to evaluate" +:+ nl +:+
  "Your task is to predict " +:+ dq +:+ "Relevant" +:+ dq +:+ " if the Retrieved Document contains the information required to provide an answer to the Query, otherwise you should print " +:+ dq +:+ "Not Relevant" +:+ dq +:+ " " +:+ nl +:+
  "You can take advantage of the information in the Positive Document to identify the correct answer to the Query and then verify that the Retrieved Document contains that piece of information" +:+ nl +:+
  "#####" +:+ nl +:+
  "Here are your inputs:" +:+ nl +:+
  "Query: {query_text}" +:+ nl +:+
  "Positive Document: {positive_text}" +:+ nl +:+
  "Retrieved Document: {retrieved_text}" +:+ nl +:+
  "#####" +:+ nl +:+ nl +:+
  "Take a step back and reflect carefully on how best to solve your task" +:+ nl +:+
  "You should provide your answer in the form of a boolean value: " +:+ dq +:+ "Relevant" +:+ dq +:+ " or " +:+ dq +:+ "Not Relevant" +:+ dq +:+ nl +:+
  "Good luck!".

Record task : Type := {
  prompt_inputs : list string;
  prompt_template : string;
  response_types : list string;
  metadata : list string;
  max_output_tokens : Z
}.

(** The three entries of [POOL]. *)
Definition qa_pointwise : task :=
  {| prompt_inputs := ["query_text"; "retrieved_text"];
     prompt_template := QA_POINTWISE_RELEVANCE_PROMPT_TEMPLATE;
     response_types := ["Relevant"; "Not Relevant"];
     metadata := ["qid"; "retrieved_doc_id"; "human_judgment"];
     max_output_tokens := 4 |}.

Definition qa_pairwise : task :=
  {| prompt_inputs := ["query_text"; "positive_text"; "retrieved_text"];
     prompt_template := QA_PAIRWISE_RELEVANCE_PROMPT_TEMPLATE;
     response_types := ["Relevant"; "Not Relevant"];
     metadata := ["qid"; "retrieved_doc_id"; "human_judgment"];
     max_output_tokens := 4 |}.

Definition chain_of_thought : task :=
  {| prompt_inputs := ["query_text"; "retrieved_text"];
     prompt_template := CHAIN_OF_THOUGHT_PROMPT_TEMPLATE;
     response_types :=
       ["Answer: " +:+ dq +:+ "Relevant" +:+ dq;
        "Answer: " +:+ dq +:+ "Not Relevant" +:+ dq];
     metadata := ["qid"; "retrieved_doc_id"; "human_judgment"];
     max_output_tokens := 250 |}.

Definition POOL : gmap string task :=
  list_to_map
    [("qa_pointwise", qa_pointwise);
     ("qa_pairwise", qa_pairwise);
     ("chain_of_thought", chain_of_thought)].

(** [get_llm_evaluator]; [pipe] stands for the pipeline the evaluator builds
    from [model_name_or_path]. *)
Definition get_llm_evaluator (pipe : Phi3Evaluator.pipeline_t)
    (task_type : string) (iterations : Z) (temperature : float)
    : outcome Phi3Evaluator.t :=
  match POOL !! task_type with
  | None => Raise ValueError
  | Some task_type_def =>
      Ok (Phi3Evaluator.__init__ pipe (response_types task_type_def)
            iterations temperature)
  end.

(** The body of the loop of [generate_prompts] for one record. *)
Definition prompt_of (task_def : task) (line : gmap string string)
    : outcome string :=
  let necessary_keys := prompt_inputs task_def ++ metadata task_def in
  if all_in line necessary_keys then
    prompt_inputs ← dict_of_keys line (prompt_inputs task_def) ∅;
    str_format (prompt_template task_def) prompt_inputs
  else Raise AssertionError.

Definition generate_prompts (data : list (gmap string string))
    (task_type : string) : run string :=
  match POOL !! task_type with
  | None => ([], Some KeyError)
  | Some task_def => gen_for (prompt_of task_def) data
  end.

(** The body of the loop of [generate_data] for one record. *)
Definition checked (task_def : task) (line : gmap string string)
    : outcome (gmap string string) :=
  let necessary_keys := prompt_inputs task_def ++ metadata task_def in
  if all_in line necessary_keys then Ok line else Raise AssertionError.

Definition generate_data (data : list (gmap string string))
    (task_type : string) : run (gmap string string) :=
  match POOL !! task_type with
  | None => ([], Some KeyError)
  | Some task_def => gen_for (checked task_def) data
  end.

(** One row of [outputs]: the record's fields and the three LLM columns. *)
Record json_out : Type := {
  fields : gmap string string;
  LLM_raw_response : list string;
  LLM_mapped_response : string;
  LLM_agreement : float
}.

Section Run.

Variable re_compile : string → outcome (string → option string).

(** The judgments zipped with the records they were made for. *)
Definition judged (llm_evaluator : Phi3Evaluator.t)
    (data : list (gmap string string)) (task_type : string)
    (max_tokens batch_size : Z)
    : run ((list string * string * float) * gmap string string) :=
  zip (Phi3Evaluator.__call__ re_compile llm_evaluator
         (generate_prompts data task_type) max_tokens batch_size)
      (generate_data data task_type).

(** The loop that fills [outputs]. *)
Definition outputs (llm_evaluator : Phi3Evaluator.t)
    (data : list (gmap string string)) (task_type : string) (batch_size : Z)
    : run json_out :=
  match POOL !! task_type with
  | None => ([], Some KeyError)
  | Some task_def =>
      let pairs :=
        judged llm_evaluator data task_type (max_output_tokens task_def)
          batch_size in
      let '(rows, raised) :=
        gen_for
          (λ '((raw_responses, mapped_response, agreement), data_tuple),
             json ← dict_of_keys data_tuple
                      (metadata task_def ++ prompt_inputs task_def) ∅;
             mret {| fields := json;
                     LLM_raw_response := raw_responses;
                     LLM_mapped_response := mapped_response;
                     LLM_agreement := agreement |})
          pairs.1 in
      (rows, match raised with Some e => Some e | None => pairs.2 end)
  end.

End Run.

End Prompts.

(** ** The playground clients: building the question-answering prompt

    [create_prompt] of the Bedrock client and [create_openai_prompt] of the
    OpenAI client have the same body; [index_source_fields] is the table the
    notebooks tell the user to update, and is a parameter here. *)

Module Playground.
Import Py.

(** Exceptions of this code. *)
Inductive raised : Set :=
| TypeError
| IndexError
| KeyError.

Inductive result (A : Type) : Type :=
| Return (a : A)
| Throw (e : raised).
Arguments Return {A} a.
Arguments Throw {A} e.

#[global] Instance result_ret : MRet result := λ A a, Return a.

#[global] Instance result_bind : MBind result := λ A B k r,
  match r with
  | Return a => k a
  | Throw e => Throw e
  end.

(** An inner hit, of which the code reads [inner_hit["_source"]]. *)
Record inner_hit : Type := { inner_source : gmap string string }.

(** A search hit: [hit["_index"]], [hit["_source"]] and, when the key is
    present, [hit["inner_hits"]], which maps a path to the inner hits found
    under it ([...["hits"]["hits"]]). *)
Record hit : Type := {
  _index : string;
  _source : gmap string string;
  inner_hits : option (gmap string (list inner_hit))
}.

(** The table of the notebooks. *)
Definition index_source_fields : gmap string (list string) :=
  {[ "bm25-index" := ["text"] ]}.

(** [index_source_fields.get(index)[0]]: [get] answers [None] for an unknown
    index, and [None] cannot be subscripted. *)
Definition first_source_field (fields : gmap string (list string))
    (index : string) : result string :=
  match fields !! index with
  | None => Throw TypeError
  | Some [] => Throw IndexError
  | Some (field :: _) => Return field
  end.

(** [inner_hit["_source"]["text"] for inner_hit in inner], as [join] draws
    the texts. *)
Fixpoint inner_texts (inner : list inner_hit) : result (list string) :=
  match inner with
  | [] => Return []
  | inner_hit :: rest =>
      match inner_source inner_hit !! "text" with
      | None => Throw KeyError
      | Some text => texts ← inner_texts rest; mret (text :: texts)
      end
  end.

Definition separator : string :=
  String (ascii_of_nat 10) " --- " +:+ String (ascii_of_nat 10) "".

(** The body of the loop: what one hit adds to [context]. *)
Definition hit_context (fields : gmap string (list string)) (hit : hit)
    : result string :=
  field ← first_source_field fields (_index hit);
  let inner_hit_path := _index hit +:+ "." +:+ field in
  match inner_hits hit ≫= (λ found, found !! inner_hit_path) with
  | Some inner =>
      texts ← inner_texts inner;
      mret (str_join separator texts)
  | None =>
      source_field ← first_source_field fields (_index hit);
      match _source hit !! source_field with
      | None => Throw KeyError
      | Some hit_context => mret (hit_context +:+ String (ascii_of_nat 10) "")
      end
  end.

(** [for hit in results: context += ...], started at [context]. *)
Fixpoint add_contexts (fields : gmap string (list string)) (context : string)
    (results : list hit) : result string :=
  match results with
  | [] => Return context
  | hit :: rest =>
      piece ← hit_context fields hit;
      add_contexts fields (context +:+ piece) rest
  end.

(** The f-string of the prompt. *)
Definition prompt_text (context question : string) : string :=
  let nl := String (ascii_of_nat 10) "" in
  nl +:+
  "  Instructions:" +:+ nl +:+
  "  " +:+ nl +:+
  "  - You are an assistant for question-answering tasks." +:+ nl +:+
  "  - Answer questions truthfully and factually using only the information presented." +:+ nl +:+
  "  - If you don't know the answer, just say that you don't know, don't make up an answer!" +:+ nl +:+
  "  - You must always cite the document where the answer was extracted using inline academic citation style [], using the position." +:+ nl +:+
  "  - Use markdown format for code examples." +:+ nl +:+
  "  - You are correct, factual, precise, and reliable." +:+ nl +:+
  "  " +:+ nl +:+
  nl +:+
  "  Context:" +:+ nl +:+
  "  " +:+ context +:+ nl +:+
  nl +:+
  "  Question: " +:+ question +:+ nl +:+
  "  Answer:" +:+ nl +:+
  "  ".

Definition create_prompt (fields : gmap string (list string))
    (question : string) (results : list hit) : result string :=
  context ← add_contexts fields "" results;
  mret (prompt_text context question).

End Playground.

(** ** Reference notions the statements are written with *)

(** How many times [k] occurs in [l]. *)
Definition count (k : string) (l : list string) : nat :=
  length (filter (λ x, x = k) l).

(** The position of the first occurrence of [k] in [l] ([length l] when
    there is none). *)
Fixpoint first_index (k : string) (l : list string) : nat :=
  match l with
  | [] => 0
  | x :: xs => if decide (x = k) then 0 else S (first_index k xs)
  end.

(** The items of a counter over [l] whose keys are [ks]. *)
Definition items_of (l : list string) (ks : list string) : Py.counter :=
  (λ k, (k, Z.of_nat (count k l))) <$> ks.

(** Keys further right were first seen later. *)
Definition by_first_seen (l : list string) (ks : list string) : Prop :=
  ∀ p a q b, ks = p ++ a :: q → b ∈ q → first_index a l < first_index b l.

(** A record has every key the task needs. *)
Definition has_all_keys (task_def : Prompts.task) (line : gmap string string)
    : Prop :=
  Forall (λ key, is_Some (line !! key))
    (Prompts.prompt_inputs task_def ++ Prompts.metadata task_def).

(** A template cut into pieces: text that stands for itself, and
    replacement fields [{key}]. *)
Inductive piece : Type :=
| Text (s : string)
| Field (key : string).

Definition piece_source (p : piece) : string :=
  match p with
  | Text s => s
  | Field key => "{" +:+ key +:+ "}"
  end.

Definition template_of (pieces : list piece) : string :=
  foldr (λ p rest, piece_source p +:+ rest) "" pieces.

Definition brace_free (s : string) : Prop :=
  Forall (λ c, c ≠ "{"%char ∧ c ≠ "}"%char) (list_ascii_of_string s).

(** What a piece becomes in the prompt made for a record, and the pieces
    put together. *)
Definition piece_value (line : gmap string string) (p : piece) : option string :=
  match p with
  | Text s => Some s
  | Field key => line !! key
  end.

Fixpoint render (line : gmap string string) (pieces : list piece)
    : option string :=
  match pieces with
  | [] => Some ""
  | p :: pieces' =>
      value ← piece_value line p;
      rest ← render line pieces';
      Some (value +:+ rest)
  end.

Definition well_formed (known : list string) (p : piece) : Prop :=
  match p with
  | Text s => brace_free s
  | Field key => key ∈ known ∧ key ≠ "" ∧ brace_free key
  end.

(** [prompt] is the task's template with every replacement field [{key}]
    replaced by the record's value for [key], the text between the fields
    being kept as it is; the fields are prompt inputs of the task. *)
Definition formatted_prompt (task_def : Prompts.task)
    (line : gmap string string) (prompt : string) : Prop :=
  ∃ pieces,
    Prompts.prompt_template task_def = template_of pieces
    ∧ Forall (well_formed (Prompts.prompt_inputs task_def)) pieces
    ∧ render line pieces = Some prompt.

(** The pieces of a template, read from the left: one piece of text per
    character outside the fields. *)
Fixpoint pieces_of (field : option string) (s : string) : list piece :=
  match s with
  | EmptyString => []
  | String c r =>
      match field with
      | None =>
          if Ascii.eqb c "{" then pieces_of (Some "") r
          else Text (String c "") :: pieces_of None r
      | Some name =>
          if Ascii.eqb c "}" then Field name :: pieces_of None r
          else pieces_of (Some (name +:+ String c "")) r
      end
  end.

(** A name that [str.format] looks up among the keyword arguments as it
    stands. *)
Definition name_char (c : ascii) : bool :=
  negb (Py.field_special c) && negb (Ascii.eqb c "}").

Definition plain_name (name : string) : bool :=
  negb (forallb Py.is_digit (list_ascii_of_string name))
  && forallb name_char (list_ascii_of_string name).

Definition plain_text (s : string) : bool :=
  forallb (λ c, negb (Ascii.eqb c "{") && negb (Ascii.eqb c "}"))
    (list_ascii_of_string s).

(** A check on pieces: the text has no brace, and every field is a plain
    name among [known]. *)
Definition pieces_ok (known : list string) (pieces : list piece) : bool :=
  forallb (λ p, match p with
                | Text s => plain_text s
                | Field key => plain_name key && bool_decide (key ∈ known)
                end) pieces.

(** A task whose template is made of pieces that pass the check. *)
Definition template_checked (task_def : Prompts.task) : Prop :=
  ∃ pieces,
    Prompts.prompt_template task_def = template_of pieces
    ∧ pieces_ok (Prompts.prompt_inputs task_def) pieces = true.

(** What a pattern character matches under [re.IGNORECASE]: itself, the
    other case of an ASCII letter, and the four letters outside ASCII that
    go with [s], [k] and [i]. *)
Definition upper_case (c : ascii) : Prop := 65 ≤ nat_of_ascii c ≤ 90.
Definition lower_case (c : ascii) : Prop := 97 ≤ nat_of_ascii c ≤ 122.

Inductive ignorecase_char (a : ascii) : string → Prop :=
| ic_same : ignorecase_char a (String a "")
| ic_lower : upper_case a →
    ignorecase_char a (String (ascii_of_nat (nat_of_ascii a + 32)) "")
| ic_upper : lower_case a →
    ignorecase_char a (String (ascii_of_nat (nat_of_ascii a - 32)) "")
| ic_long_s : a = "s"%char ∨ a = "S"%char → ignorecase_char a Re.long_s
| ic_kelvin_sign : a = "k"%char ∨ a = "K"%char → ignorecase_char a Re.kelvin_sign
| ic_dotted_capital_i :
    a = "i"%char ∨ a = "I"%char → ignorecase_char a Re.dotted_capital_i
| ic_dotless_i : a = "i"%char ∨ a = "I"%char → ignorecase_char a Re.dotless_i.

(** [m] is the literal [lit] up to that: character by character. *)
Inductive ignorecase_eq : string → string → Prop :=
| ic_empty : ignorecase_eq "" ""
| ic_char a lit piece m :
    ignorecase_char a piece → ignorecase_eq lit m →
    ignorecase_eq (String a lit) (piece +:+ m).

(** The last step of [binary_round_aux] in [SpecFloat]: the float of a
    mantissa that was shifted into place. *)
Definition finish (res : shr_record * Z) : spec_float :=
  let '(mrs, e) := res in
  match shr_m mrs with
  | Z0 => S754_zero false
  | Zpos m =>
      if (e <=? emax - prec)%Z then S754_finite false m e
      else S754_infinity false
  | Zneg _ => S754_nan
  end.

(** The float that the decimal with the two digits [k / 100] denotes. *)
Definition hundredths (k : Z) : float :=
  PrimFloat.div (Py.float_of_Z k) (Py.float_of_Z 100).

(** [k] is an integer nearest to [100 * num / den]. *)
Definition nearest_hundredth (num den k : Z) : Prop :=
  (2 * Z.abs (k * den - 100 * num) ≤ den)%Z.

(** The pipeline returns one output per input, whatever the arguments. *)
Definition answers_each_input (self : Phi3Evaluator.t) : Prop :=
  ∀ inputs args, length (Phi3Evaluator.pipeline self inputs args) = length inputs.

(** Concrete runs: the output made of the generations [texts], a scripted
    pipeline that returns it for every input, and evaluators over it. *)
Definition answers (texts : list string) : Phi3Evaluator.pipe_output :=
  Phi3Evaluator.Many (Phi3Evaluator.Build_generation <$> texts).

Definition scripted (texts : list string) : Phi3Evaluator.pipeline_t :=
  Phi3Evaluator.pipeline_of (λ _ _, answers texts).

Definition evaluator_of (response_types texts : list string) : Phi3Evaluator.t :=
  Phi3Evaluator.__init__ (scripted texts) response_types 3 0.5.

Definition qa_evaluator : list string → Phi3Evaluator.t :=
  evaluator_of ["Relevant"; "Not Relevant"].

(** A record in the shape of [SAMPLE_DATA], and the same record without
    its [qid]. *)
Definition sample_record : gmap string string :=
  list_to_map
    [("qid", "125705");
     ("query_text", "define preventive");
     ("retrieved_text", "The Prevention Institute defines prevention as a systematic process.");
     ("retrieved_doc_id", "6464885");
     ("human_judgment", "Not Relevant")].

Definition record_without_qid : gmap string string := delete "qid" sample_record.

(** * Properties *)

Import Py.

(** ** Counting and first positions *)

Lemma count_cons k x l :
  count k (x :: l) = (if decide (x = k) then 1 else 0) + count k l.
Proof.
  unfold count. rewrite filter_cons. destruct (decide (x = k)); reflexivity.
Qed.

Lemma count_snoc k l x :
  count k (l ++ [x]) = count k l + (if decide (x = k) then 1 else 0).
Proof.
  induction l as [|y l IH]; simpl.
  - rewrite count_cons. unfold count. simpl. lia.
  - rewrite !count_cons, IH. lia.
Qed.

Lemma count_pos k l : k ∈ l ↔ 0 < count k l.
Proof.
  induction l as [|y l IH].
  - split; [intros H; inversion H | unfold count; simpl; lia].
  - rewrite count_cons, elem_of_cons. destruct (decide (y = k)) as [->|Hne].
    + split; [lia | auto].
    + rewrite IH. simpl. split; [intros [?|?]; [congruence | assumption] | auto].
Qed.

Lemma first_index_lt k l : k ∈ l → first_index k l < length l.
Proof.
  induction l as [|y l IH]; intros Hin; [inversion Hin|].
  simpl. destruct (decide (y = k)); [lia|].
  apply elem_of_cons in Hin as [?|Hin]; [congruence|]. specialize (IH Hin). lia.
Qed.

Lemma first_index_app_in k l l' :
  k ∈ l → first_index k (l ++ l') = first_index k l.
Proof.
  induction l as [|y l IH]; intros Hin; [inversion Hin|].
  simpl. destruct (decide (y = k)); [reflexivity|].
  apply elem_of_cons in Hin as [?|Hin]; [congruence|]. rewrite IH; auto.
Qed.

Lemma first_index_app_notin k l l' :
  k ∉ l → first_index k (l ++ l') = length l + first_index k l'.
Proof.
  induction l as [|y l IH]; intros Hnin; [reflexivity|].
  simpl. apply not_elem_of_cons in Hnin as [Hne Hnin].
  destruct (decide (y = k)); [congruence|]. rewrite IH; auto.
Qed.

(** ** The Counter keeps first-occurrence order and exact counts *)

Lemma Counter_snoc l x : Counter (l ++ [x]) = counter_incr x (Counter l).
Proof. unfold Counter. rewrite fold_left_app. reflexivity. Qed.

Lemma counter_incr_seen (f : string → Z) x ks :
  NoDup ks → x ∈ ks →
  counter_incr x ((λ k, (k, f k)) <$> ks)
  = (λ k, (k, if decide (x = k) then (f k + 1)%Z else f k)) <$> ks.
Proof.
  induction ks as [|k ks IH]; intros Hnd Hin; [inversion Hin|].
  apply NoDup_cons in Hnd as [Hk Hnd]. simpl.
  destruct (String.eqb_spec x k) as [->|Hne].
  - destruct (decide (k = k)); [|congruence]. f_equal.
    apply list_fmap_ext. intros _ k' Hk'%list_elem_of_lookup_2.
    destruct (decide (k = k')); [congruence | reflexivity].
  - destruct (decide (x = k)); [congruence|]. f_equal.
    apply elem_of_cons in Hin as [?|Hin]; [congruence|]. apply IH; auto.
Qed.

Lemma counter_incr_new (f : string → Z) x ks :
  x ∉ ks →
  counter_incr x ((λ k, (k, f k)) <$> ks) = ((λ k, (k, f k)) <$> ks) ++ [(x, 1%Z)].
Proof.
  induction ks as [|k ks IH]; intros Hnin; [reflexivity|].
  apply not_elem_of_cons in Hnin as [Hne Hnin]. simpl.
  destruct (String.eqb_spec x k); [congruence|]. f_equal. apply IH; auto.
Qed.

Lemma Counter_items l :
  ∃ ks, Counter l = items_of l ks ∧ NoDup ks ∧ (∀ k, k ∈ ks ↔ k ∈ l)
        ∧ by_first_seen l ks.
Proof.
  induction l as [|x l IH] using rev_ind.
  - exists []. split; [reflexivity|]. split; [constructor|]. split.
    + intros k. reflexivity.
    + intros p a q b Hks. destruct p; discriminate.
  - destruct IH as (ks & Hc & Hnd & Hin & Hord).
    rewrite Counter_snoc, Hc. unfold items_of.
    destruct (decide (x ∈ ks)) as [Hx|Hx].
    + exists ks. rewrite counter_incr_seen by assumption.
      split; [|split; [assumption|split]].
      * apply list_fmap_ext. intros _ k _. f_equal. rewrite count_snoc.
        destruct (decide (x = k)); lia.
      * intros k. rewrite elem_of_app, list_elem_of_singleton, Hin.
        split; [auto|intros [?| ->]; [assumption|by apply Hin]].
      * intros p a q b Hks Hb.
        assert (a ∈ l) by (apply Hin; rewrite Hks, elem_of_app, elem_of_cons; auto).
        assert (b ∈ l) by (apply Hin; rewrite Hks, elem_of_app, elem_of_cons; auto).
        rewrite !first_index_app_in by assumption. eauto.
    + exists (ks ++ [x]). rewrite counter_incr_new by assumption.
      assert (Hxl : x ∉ l) by (rewrite <- Hin; assumption).
      split; [|split; [|split]].
      * rewrite fmap_app. simpl. f_equal.
        -- apply list_fmap_ext. intros _ k Hk%list_elem_of_lookup_2. f_equal.
           rewrite count_snoc. destruct (decide (x = k)); [congruence | lia].
        -- rewrite count_snoc. destruct (decide (x = x)); [|congruence].
           assert (count x l = 0) as -> by (rewrite count_pos in Hxl; lia).
           reflexivity.
      * apply NoDup_app. repeat split; [assumption| |apply NoDup_singleton].
        intros k Hk Hk'%list_elem_of_singleton. congruence.
      * intros k. rewrite !elem_of_app, Hin. reflexivity.
      * intros p a q b Hks Hb.
        destruct q as [|b' q _] using rev_ind; [inversion Hb|].
        change (p ++ a :: q ++ [b']) with (p ++ (a :: q) ++ [b']) in Hks.
        rewrite app_assoc in Hks. apply app_inj_tail in Hks as [Hks ->].
        assert (Ha : a ∈ l) by (apply Hin; rewrite Hks, elem_of_app, elem_of_cons; auto).
        rewrite (first_index_app_in a) by assumption.
        apply elem_of_app in Hb as [Hb|Hb%list_elem_of_singleton].
        -- assert (b ∈ l) by (apply Hin; rewrite Hks, elem_of_app, elem_of_cons; auto).
           rewrite first_index_app_in by assumption. eauto.
        -- subst b. rewrite first_index_app_notin by assumption.
           pose proof (first_index_lt a l Ha). lia.
Qed.

(** ** [max] returns the first item of greatest count *)

Lemma max_by_count_first best items :
  ∃ pre post,
    best :: items = pre ++ max_by_count best items :: post
    ∧ Forall (λ y, (y.2 < (max_by_count best items).2)%Z) pre
    ∧ Forall (λ y, (y.2 ≤ (max_by_count best items).2)%Z) post.
Proof.
  revert best. induction items as [|x xs IH]; intros best; simpl.
  - exists [], []. repeat split; constructor.
  - destruct (Z.ltb_spec best.2 x.2) as [Hlt|Hge].
    + destruct (IH x) as (pre & post & Heq & Hpre & Hpost).
      exists (best :: pre), post. rewrite Heq at 1. split; [reflexivity|].
      split; [|assumption]. constructor; [|assumption].
      assert (Hx : x ∈ pre ++ max_by_count x xs :: post)
        by (rewrite <- Heq; left).
      apply elem_of_app in Hx as [Hx|Hx].
      * rewrite Forall_forall in Hpre. specialize (Hpre _ Hx). simpl in Hpre. lia.
      * apply elem_of_cons in Hx as [<-|Hx]; [assumption|].
        rewrite Forall_forall in Hpost. specialize (Hpost _ Hx). simpl in Hpost. lia.
    + destruct (IH best) as (pre & post & Heq & Hpre & Hpost).
      destruct pre as [|b pre].
      * simpl in Heq. injection Heq as Hb Hxs. exists [], (x :: xs).
        split; [simpl; congruence|]. split; [constructor|].
        constructor; [rewrite <- Hb; assumption | rewrite Hxs at 1; assumption].
      * simpl in Heq. injection Heq as Hb Hxs. subst b.
        exists (best :: x :: pre), post.
        split; [simpl; do 2 f_equal; exact Hxs|].
        split; [|assumption]. apply Forall_cons in Hpre as [Hbest Hpre].
        repeat constructor; [assumption | simpl in *; lia | assumption].
Qed.

(** ** The winning label *)

(** [most_common(1)] on a non-empty list of labels is one item: a label of
    the list with its exact count, no label occurs more often, and every
    other label that occurs as often was first seen later. *)
Lemma most_common_winner (l : list string) :
  l ≠ [] →
  ∃ lbl,
    most_common_1 (Counter l) = [(lbl, Z.of_nat (count lbl l))]
    ∧ lbl ∈ l
    ∧ (∀ k, count k l ≤ count lbl l)
    ∧ (∀ k, k ≠ lbl → count k l = count lbl l →
            first_index lbl l < first_index k l).
Proof.
  intros Hl. destruct (Counter_items l) as (ks & Hc & Hnd & Hin & Hord).
  destruct ks as [|k0 ks'].
  { destruct l as [|x l]; [congruence|].
    exfalso. eapply not_elem_of_nil, Hin. left. }
  rewrite Hc. unfold items_of.
  set (f := λ k : string, (k, Z.of_nat (count k l))).
  change (most_common_1 (f <$> k0 :: ks'))
    with [max_by_count (f k0) (f <$> ks')].
  destruct (max_by_count_first (f k0) (f <$> ks'))
    as (pre & post & Heq & Hpre & Hpost).
  set (w := max_by_count (f k0) (f <$> ks')) in *.
  change (f k0 :: (f <$> ks')) with (f <$> k0 :: ks') in Heq.
  apply fmap_app_inv in Heq as (pk & rest & -> & Hw & Hks).
  symmetry in Hw.
  apply fmap_cons_inv in Hw as (lbl & qk & Hlbl & -> & ->).
  exists lbl. split; [rewrite Hlbl; reflexivity|].
  assert (Hlin : lbl ∈ l)
    by (apply Hin; rewrite Hks, elem_of_app, elem_of_cons; auto).
  split; [assumption|].
  assert (Hle : ∀ k, k ∈ qk → count k l ≤ count lbl l).
  { intros k Hk. rewrite Forall_fmap, Forall_forall in Hpost.
    specialize (Hpost k Hk). rewrite Hlbl in Hpost. simpl in Hpost. lia. }
  assert (Hlt : ∀ k, k ∈ pk → count k l < count lbl l).
  { intros k Hk. rewrite Forall_fmap, Forall_forall in Hpre.
    specialize (Hpre k Hk). rewrite Hlbl in Hpre. simpl in Hpre. lia. }
  assert (Hcases : ∀ k, k ∈ l → k ∈ pk ∨ k = lbl ∨ k ∈ qk).
  { intros k Hk. apply Hin in Hk.
    rewrite Hks, elem_of_app, elem_of_cons in Hk. tauto. }
  split.
  - intros k. destruct (decide (k ∈ l)) as [Hk|Hk].
    + destruct (Hcases k Hk) as [H|[->|H]]; [apply Hlt in H; lia | lia | auto].
    + rewrite count_pos in Hk. lia.
  - intros k Hne Hcnt.
    assert (Hk : k ∈ l).
    { apply count_pos. rewrite Hcnt. apply count_pos. assumption. }
    destruct (Hcases k Hk) as [H|[->|H]].
    + apply Hlt in H. lia.
    + congruence.
    + eapply Hord; eauto.
Qed.

(** ** Generators whose body never raises *)

Lemma gen_for_total {A B} (body : A → outcome B) (l : list A) :
  (∀ x, x ∈ l → ∃ y, body x = Ok y) →
  ∃ ys, gen_for body l = (ys, None) ∧ Forall2 (λ x y, body x = Ok y) l ys.
Proof.
  induction l as [|x l IH]; intros Hok; simpl.
  - exists []. split; [reflexivity | constructor].
  - destruct (Hok x) as [y Hy]; [left|]. rewrite Hy.
    destruct IH as (ys & Hys & Hall); [intros; apply Hok; by right|].
    rewrite Hys. exists (y :: ys). split; [reflexivity | by constructor].
Qed.

(** ** Floats: the share of the votes, divided and rounded

    The binary64 operations are specified by [SpecFloat]; the lemmas below
    follow a division of two positive integers through that specification,
    and then the rounding to two decimals. *)

Section Floats.

Local Open Scope Z_scope.

Lemma digits2_pos_log2 p : Zpos (digits2_pos p) = Z.log2 (Zpos p) + 1.
Proof.
  assert (H : digits2_pos p = Pos.size p) by (induction p; simpl; congruence).
  rewrite H. destruct p; simpl; lia.
Qed.

Lemma digits2_pos_bounds p d :
  2 ^ (d - 1) <= Zpos p < 2 ^ d -> 0 < d -> Zpos (digits2_pos p) = d.
Proof.
  intros Hb Hd. rewrite digits2_pos_log2.
  rewrite (Z.log2_unique (Zpos p) (d - 1)); [lia | lia |].
  replace (Z.succ (d - 1)) with d by lia. exact Hb.
Qed.

Lemma iter_xO p k : Zpos (Pos.iter xO p k) = Zpos p * 2 ^ Zpos k.
Proof.
  induction k as [|k IH] using Pos.peano_ind.
  - simpl. lia.
  - rewrite Pos.iter_succ, Pos2Z.inj_succ, Z.pow_succ_r by lia.
    rewrite Pos2Z.inj_xO, IH. lia.
Qed.

(** A 53-bit mantissa with exact location passes the rounding unchanged. *)
Lemma binary_round_aux_exact m e :
  2 ^ 52 <= Zpos m < 2 ^ 53 -> -1074 <= e <= 971 ->
  binary_round_aux prec emax false (Zpos m) e loc_Exact = S754_finite false m e.
Proof.
  intros Hm He.
  assert (Hd : Zpos (digits2_pos m) = 53) by (apply digits2_pos_bounds; lia).
  assert (Hs : shr_fexp prec emax (Zpos m) e loc_Exact
               = (Build_shr_record (Zpos m) false false, e)).
  { unfold shr_fexp, Zdigits2. rewrite Hd. unfold fexp, emin, prec, emax.
    replace (Z.max (53 + e - 53) (3 - 1024 - 53) - e) with 0 by lia.
    reflexivity. }
  unfold binary_round_aux. rewrite Hs. simpl round_nearest_even. rewrite Hs.
  simpl shr_m. cbv iota beta.
  destruct (Z.leb_spec e (emax - prec)); [reflexivity|].
  unfold emax, prec in *. lia.
Qed.

Lemma Prim2SF_of_pos z :
  0 < z < 2 ^ 53 ->
  exists m s, Prim2SF (Py.float_of_Z z) = S754_finite false m (- s)
    /\ 0 <= s <= 52 /\ Zpos m = z * 2 ^ s /\ 2 ^ 52 <= Zpos m < 2 ^ 53.
Proof.
  intros Hz. unfold Py.float_of_Z.
  destruct (Z.ltb_spec z 0); [lia|].
  rewrite of_uint63_spec, Uint63.of_Z_spec.
  rewrite Z.mod_small by (change wB with (2 ^ 63); lia).
  destruct z as [|p|p]; try lia.
  unfold binary_normalize, binary_round.
  set (d := Zpos (digits2_pos p)).
  assert (Hd : 2 ^ (d - 1) <= Zpos p < 2 ^ d /\ 0 < d).
  { subst d. rewrite digits2_pos_log2.
    pose proof (Z.log2_spec (Zpos p) ltac:(lia)) as Hl.
    pose proof (Z.log2_nonneg (Zpos p)).
    replace (Z.log2 (Zpos p) + 1 - 1) with (Z.log2 (Zpos p)) by lia.
    replace (Z.log2 (Zpos p) + 1) with (Z.succ (Z.log2 (Zpos p))) by lia.
    split; [exact Hl | lia]. }
  destruct Hd as [Hb Hd0].
  assert (Hd53 : d <= 53).
  { destruct (Z.le_gt_cases d 53) as [|Hgt]; [assumption|].
    assert (2 ^ 53 <= 2 ^ (d - 1)) by (apply Z.pow_le_mono_r; lia). lia. }
  unfold shl_align. fold d.
  replace (fexp prec emax (d + 0) - 0) with (d - 53)
    by (unfold fexp, emin, prec, emax; lia).
  replace (fexp prec emax (d + 0)) with (d - 53)
    by (unfold fexp, emin, prec, emax; lia).
  destruct (d - 53) as [|k|k] eqn:Hk; try lia.
  - assert (d = 53) as Hd by lia. rewrite Hd in Hb.
    change (2 ^ (53 - 1)) with (2 ^ 52) in Hb.
    exists p, 0. rewrite binary_round_aux_exact by lia.
    split; [reflexivity|]. split; [lia|]. split; lia.
  - assert (Hm : Zpos (Pos.iter xO p k) = Zpos p * 2 ^ (53 - d)).
    { rewrite iter_xO. f_equal. f_equal. lia. }
    assert (Hbm : 2 ^ 52 <= Zpos (Pos.iter xO p k) < 2 ^ 53).
    { rewrite Hm.
      replace (2 ^ 52) with (2 ^ (d - 1) * 2 ^ (53 - d))
        by (rewrite <- Z.pow_add_r by lia; f_equal; lia).
      replace (2 ^ 53) with (2 ^ d * 2 ^ (53 - d))
        by (rewrite <- Z.pow_add_r by lia; f_equal; lia).
      assert (0 < 2 ^ (53 - d)) by (apply Z.pow_pos_nonneg; lia).
      nia. }
    exists (Pos.iter xO p k), (53 - d).
    rewrite binary_round_aux_exact by (assumption || lia).
    split; [f_equal; lia|]. split; [lia|]. split; [exact Hm | exact Hbm].
Qed.

Lemma new_location_spec Y r :
  0 < Y -> 0 <= r < Y ->
  new_location Y r = if r =? 0 then loc_Exact else loc_Inexact (2 * r ?= Y).
Proof.
  intros HY Hr. unfold new_location, new_location_even, new_location_odd.
  destruct (Z.even Y) eqn:Hev; [reflexivity|].
  destruct (r =? 0); [reflexivity|]. f_equal.
  assert (Hodd : Z.odd Y = true) by (rewrite <- Z.negb_even, Hev; reflexivity).
  apply Z.odd_spec in Hodd as [y Hy].
  destruct (Z.compare_spec (2 * r + 1) Y), (Z.compare_spec (2 * r) Y);
    try reflexivity; lia.
Qed.

Lemma loc_of_shr_record_of_loc m l :
  loc_of_shr_record (shr_record_of_loc m l) = l
  /\ shr_m (shr_record_of_loc m l) = m.
Proof. destruct l as [|[]]; split; reflexivity. Qed.

Lemma binary_round_aux_eq mx ex lx :
  binary_round_aux prec emax false mx ex lx
  = finish (shr_fexp prec emax
              (round_nearest_even (shr_m (fst (shr_fexp prec emax mx ex lx)))
                 (loc_of_shr_record (fst (shr_fexp prec emax mx ex lx))))
              (snd (shr_fexp prec emax mx ex lx)) loc_Exact).
Proof.
  unfold binary_round_aux, finish.
  destruct (shr_fexp prec emax mx ex lx) as [mrs' e']. reflexivity.
Qed.

Lemma shr_fexp_53 m e l :
  2 ^ 52 <= m < 2 ^ 53 -> -1074 <= e ->
  shr_fexp prec emax m e l = (shr_record_of_loc m l, e).
Proof.
  intros Hm He. destruct m as [|p|p]; try lia.
  unfold shr_fexp, Zdigits2.
  rewrite (digits2_pos_bounds p 53) by lia.
  unfold fexp, emin, prec, emax.
  replace (Z.max (53 + e - 53) (3 - 1024 - 53) - e) with 0 by lia.
  reflexivity.
Qed.

Lemma shr_fexp_54 m e l :
  2 ^ 53 <= m < 2 ^ 54 -> -1074 <= e ->
  shr_fexp prec emax m e l = (shr_1 (shr_record_of_loc m l), e + 1).
Proof.
  intros Hm He. destruct m as [|p|p]; try lia.
  unfold shr_fexp, Zdigits2.
  rewrite (digits2_pos_bounds p 54) by lia.
  unfold fexp, emin, prec, emax.
  replace (Z.max (54 + e - 53) (3 - 1024 - 53) - e) with 1 by lia.
  reflexivity.
Qed.

Lemma stage2 M0 e :
  2 ^ 52 <= M0 <= 2 ^ 53 -> -1074 <= e <= 960 ->
  exists M t,
    finish (shr_fexp prec emax M0 e loc_Exact) = S754_finite false M (e + t)
    /\ 0 <= t <= 1 /\ 2 ^ 52 <= Zpos M < 2 ^ 53 /\ Zpos M * 2 ^ t = M0.
Proof.
  intros HM He. destruct (Z.eq_dec M0 (2 ^ 53)) as [->|Hne].
  - rewrite shr_fexp_54 by (simpl; lia).
    exists (Z.to_pos (2 ^ 52)), 1. unfold finish. simpl shr_m. cbv iota beta.
    destruct (Z.leb_spec (e + 1) (emax - prec)) as [_|H];
      [|unfold emax, prec in H; lia].
    split; [reflexivity|]. split; [lia|]. split; reflexivity || (simpl; lia).
  - rewrite shr_fexp_53 by lia. destruct M0 as [|p|p]; try lia.
    exists p, 0. unfold finish. simpl shr_m. cbv iota beta.
    destruct (Z.leb_spec e (emax - prec)) as [_|H];
      [|unfold emax, prec in H; lia].
    split; [f_equal; lia|]. split; [lia|]. split; lia.
Qed.

Lemma round_nearest_even_53 q Y r X :
  0 < Y -> X = q * Y + r -> 0 <= r < Y ->
  let M0 := round_nearest_even q
              (if r =? 0 then loc_Exact else loc_Inexact (2 * r ?= Y)) in
  q <= M0 <= q + 1 /\ 2 * Z.abs (M0 * Y - X) <= Y.
Proof.
  intros HY HX Hr M0. subst M0.
  destruct (Z.eqb_spec r 0) as [->|Hr0]; cbn [round_nearest_even].
  - split; [lia | nia].
  - destruct (Z.compare_spec (2 * r) Y); cbn [round_nearest_even].
    + destruct (Z.even q); split; nia.
    + split; nia.
    + split; nia.
Qed.

Lemma shr_1_pos m r s :
  0 < m ->
  shr_1 (Build_shr_record m r s) = Build_shr_record (Z.div2 m) (Z.odd m) (r || s).
Proof. intros Hm. destruct m as [|[p|p|]|]; try lia; reflexivity. Qed.

Lemma round_nearest_even_54 q Y r X :
  0 < Y -> X = q * Y + r -> 0 <= r < Y -> 2 <= q ->
  let mrs := shr_1 (shr_record_of_loc q
                      (if r =? 0 then loc_Exact else loc_Inexact (2 * r ?= Y))) in
  let M0 := round_nearest_even (shr_m mrs) (loc_of_shr_record mrs) in
  q - 1 <= 2 * M0 <= q + 1 /\ Z.abs (2 * M0 * Y - X) <= Y.
Proof.
  intros HY HX Hr Hq mrs M0. subst M0 mrs.
  pose proof (Z.div2_odd q) as Hdiv. set (h := Z.div2 q) in *.
  assert (Hrec : forall b s,
    shr_1 (Build_shr_record q b s) = Build_shr_record h (Z.odd q) (b || s))
    by (intros; apply shr_1_pos; lia).
  destruct (Z.eqb_spec r 0) as [->|Hr0].
  - cbn [shr_record_of_loc]. rewrite Hrec. cbn [shr_m loc_of_shr_record orb].
    destruct (Z.odd q); cbn [Z.b2z round_nearest_even] in *.
    + destruct (Z.even h); split; nia.
    + split; nia.
  - destruct (Z.compare_spec (2 * r) Y); cbn [shr_record_of_loc]; rewrite Hrec;
      cbn [shr_m loc_of_shr_record orb];
      destruct (Z.odd q); cbn [Z.b2z round_nearest_even] in *;
      try (destruct (Z.even h)); split; nia.
Qed.

(** The quotient of a division, rounded to 53 bits. *)
Lemma div_round X Y q r e :
  0 < Y -> X = q * Y + r -> 0 <= r < Y -> 2 ^ 52 <= q < 2 ^ 54 ->
  -1074 <= e <= 900 ->
  exists M t,
    binary_round_aux prec emax false q e (new_location Y r)
    = S754_finite false M (e + t)
    /\ 0 <= t <= 2 /\ 2 ^ 52 <= Zpos M < 2 ^ 53
    /\ 2 * Z.abs (Zpos M * 2 ^ t * Y - X) <= 2 ^ t * Y.
Proof.
  intros HY HX Hr Hq He.
  rewrite binary_round_aux_eq, new_location_spec by assumption.
  set (l := if r =? 0 then loc_Exact else loc_Inexact (2 * r ?= Y)).
  destruct (Z.lt_ge_cases q (2 ^ 53)) as [Hlt|Hge].
  - rewrite (shr_fexp_53 q e l) by lia. simpl fst. simpl snd.
    destruct (loc_of_shr_record_of_loc q l) as [-> ->].
    destruct (round_nearest_even_53 q Y r X HY HX Hr) as [Hb Hn]. fold l in Hb, Hn.
    destruct (stage2 (round_nearest_even q l) e) as (M & t & -> & Ht & HM & HM0);
      [lia | lia |].
    exists M, t. split; [reflexivity|]. split; [lia|]. split; [assumption|].
    rewrite HM0. assert (0 < 2 ^ t) by (apply Z.pow_pos_nonneg; lia). nia.
  - rewrite (shr_fexp_54 q e l) by lia. simpl fst. simpl snd.
    destruct (round_nearest_even_54 q Y r X HY HX Hr ltac:(lia)) as [Hb Hn].
    fold l in Hb, Hn.
    set (M0 := round_nearest_even _ _) in *.
    destruct (stage2 M0 (e + 1)) as (M & t & -> & Ht & HM & HM0); [lia | lia |].
    exists M, (1 + t). split; [f_equal; lia|]. split; [lia|]. split; [assumption|].
    rewrite Z.pow_add_r by lia. change (2 ^ 1) with 2.
    replace (Zpos M * (2 * 2 ^ t)) with (2 * M0) by lia.
    assert (0 < 2 ^ t) by (apply Z.pow_pos_nonneg; lia). nia.
Qed.

Lemma SFdiv_core_53 m1 e1 m2 e2 :
  2 ^ 52 <= Zpos m1 < 2 ^ 53 -> 2 ^ 52 <= Zpos m2 < 2 ^ 53 ->
  -52 <= e1 <= 0 -> -52 <= e2 <= 0 ->
  SFdiv_core_binary prec emax (Zpos m1) e1 (Zpos m2) e2
  = ((Zpos m1 * 2 ^ 53) / Zpos m2, e1 - e2 - 53,
     new_location (Zpos m2) ((Zpos m1 * 2 ^ 53) mod Zpos m2)).
Proof.
  intros H1 H2 He1 He2. unfold SFdiv_core_binary, Zdigits2.
  rewrite (digits2_pos_bounds m1 53), (digits2_pos_bounds m2 53) by lia.
  replace (Z.min (fexp prec emax (53 + e1 - (53 + e2))) (e1 - e2))
    with (e1 - e2 - 53) by (unfold fexp, emin, prec, emax; lia).
  replace (e1 - e2 - (e1 - e2 - 53)) with 53 by lia. cbv iota.
  rewrite Z.shiftl_mul_pow2 by lia.
  unfold Z.div, Z.modulo.
  destruct (Z.div_eucl (Zpos m1 * 2 ^ 53) (Zpos m2)) as [q r]. reflexivity.
Qed.

Lemma quotient_lower a X Y q r :
  0 < Y -> X = q * Y + r -> 0 <= r < Y -> a * Y <= X -> a <= q.
Proof. intros. nia. Qed.

Lemma quotient_upper b X Y q r :
  0 < Y -> X = q * Y + r -> 0 <= r < Y -> X < b * Y -> q < b.
Proof. intros. nia. Qed.

Lemma scaled_le a b p : 0 < p -> a * p <= b * p -> a <= b.
Proof. intros. nia. Qed.

Lemma scaled_near P a n : 0 < P -> 2 * (P * Z.abs a) <= P * n -> 2 * Z.abs a <= n.
Proof. intros. nia. Qed.

(** The float quotient of two positive integers below [2^53]: a mantissa
    [M] and an exponent [-u] with [M * 2^-u] within half a unit in the last
    place of [c / n]. *)
Lemma Prim2SF_div_pos c n :
  0 < c <= n -> n < 2 ^ 53 ->
  exists M u,
    Prim2SF (PrimFloat.div (Py.float_of_Z c) (Py.float_of_Z n)) = S754_finite false M (- u)
    /\ 52 <= u /\ 2 * Z.abs (Zpos M * n - c * 2 ^ u) <= n.
Proof.
  intros Hc Hn.
  destruct (Prim2SF_of_pos c) as (mc & s1 & Hfc & Hs1 & Hmc & Hbc); [lia|].
  destruct (Prim2SF_of_pos n) as (mn & s2 & Hfn & Hs2 & Hmn & Hbn); [lia|].
  rewrite FloatAxioms.div_spec, Hfc, Hfn. unfold SF64div, SFdiv.
  rewrite SFdiv_core_53 by lia. cbn [xorb].
  set (X := Zpos mc * 2 ^ 53). set (Y := Zpos mn).
  assert (HY : 0 < Y) by (subst Y; lia).
  pose proof (Z.div_mod X Y ltac:(lia)) as Hdm.
  pose proof (Z.mod_pos_bound X Y HY) as Hr.
  set (q := X / Y) in *. set (r := X mod Y) in *.
  assert (HX : X = q * Y + r) by lia.
  assert (Hq : 2 ^ 52 <= q < 2 ^ 54).
  { split.
    - apply (quotient_lower _ X Y q r); try assumption. subst X Y. lia.
    - apply (quotient_upper _ X Y q r); try assumption. subst X Y. lia. }
  destruct (div_round X Y q r (- s1 - - s2 - 53) HY HX Hr Hq ltac:(lia))
    as (M & t & -> & Ht & HM & Hnear).
  assert (Hp1 : 0 < 2 ^ s1) by (apply Z.pow_pos_nonneg; lia).
  assert (Hp2 : 0 < 2 ^ s2) by (apply Z.pow_pos_nonneg; lia).
  assert (Hpt : 0 < 2 ^ t) by (apply Z.pow_pos_nonneg; lia).
  (* the exponents *)
  assert (Hs : s2 <= s1).
  { destruct (Z.le_gt_cases s2 s1) as [|Hgt]; [assumption|]. exfalso.
    assert (Hp : 2 ^ s2 = 2 ^ s1 * 2 ^ (s2 - s1))
      by (rewrite <- Z.pow_add_r by lia; f_equal; lia).
    assert (H2 : 2 ^ 1 <= 2 ^ (s2 - s1)) by (apply Z.pow_le_mono_r; lia).
    change (2 ^ 1) with 2 in H2.
    assert (Hcn : c * 2 ^ s2 <= n * 2 ^ s2) by (apply Z.mul_le_mono_nonneg_r; lia).
    assert (Hc2 : 2 * (c * 2 ^ s1) <= c * 2 ^ s2).
    { rewrite Hp. set (w := 2 ^ (s2 - s1)) in *.
      replace (c * (2 ^ s1 * w)) with (w * (c * 2 ^ s1)) by ring.
      apply Z.mul_le_mono_nonneg_r; lia. }
    lia. }
  assert (HXc : X = c * 2 ^ (s1 - s2 + 53) * 2 ^ s2).
  { subst X. rewrite Hmc, <- !Z.mul_assoc. f_equal.
    rewrite <- !Z.pow_add_r by lia. f_equal. lia. }
  assert (HYn : Y = n * 2 ^ s2) by (subst Y; exact Hmn).
  assert (Ht2 : t <= 1 \/ (t = 2 /\ s2 < s1)).
  { destruct (Z.le_gt_cases t 1) as [|Hgt]; [left; assumption|]. right.
    split; [lia|]. destruct (Z.lt_ge_cases s2 s1) as [|Hge]; [assumption|].
    exfalso. assert (t = 2) as -> by lia. assert (s1 = s2) by lia. subst s1.
    change (2 ^ 2) with 4 in Hnear.
    (* X <= 2^53 * Y and M * 4 * Y >= 2^54 * Y *)
    assert (HXY : X <= 2 ^ 53 * Y).
    { subst X Y. rewrite Hmc, Hmn.
      replace (c * 2 ^ s2 * 2 ^ 53) with (2 ^ 53 * 2 ^ s2 * c) by ring.
      replace (2 ^ 53 * (n * 2 ^ s2)) with (2 ^ 53 * 2 ^ s2 * n) by ring.
      apply Z.mul_le_mono_nonneg_l; lia. }
    assert (HMY : 2 ^ 52 * Y <= Zpos M * Y)
      by (apply Z.mul_le_mono_nonneg_r; lia).
    lia. }
  exists M, (53 + s1 - s2 - t).
  split; [f_equal; lia|]. split; [lia|].
  set (u := 53 + s1 - s2 - t).
  assert (Hu : 2 ^ (s1 - s2 + 53) = 2 ^ u * 2 ^ t)
    by (rewrite <- Z.pow_add_r by lia; f_equal; lia).
  rewrite HXc, HYn, Hu in Hnear.
  set (P := 2 ^ t * 2 ^ s2) in *.
  assert (HP : 0 < P) by (subst P; apply Z.mul_pos_pos; assumption).
  replace (Zpos M * 2 ^ t * (n * 2 ^ s2) - c * (2 ^ u * 2 ^ t) * 2 ^ s2)
    with (P * (Zpos M * n - c * 2 ^ u)) in Hnear by (subst P; ring).
  replace (2 ^ t * (n * 2 ^ s2)) with (P * n) in Hnear by (subst P; ring).
  rewrite Z.abs_mul, (Z.abs_eq P) in Hnear by lia.
  apply (scaled_near P); assumption.
Qed.

Lemma round_half_even_near N D :
  0 < D -> 2 * Z.abs (Py.round_half_even N D * D - N) <= D.
Proof.
  intros HD. unfold Py.round_half_even.
  pose proof (Z.div_mod N D ltac:(lia)) as Hdm.
  pose proof (Z.mod_pos_bound N D HD) as Hr.
  set (q := N / D) in *. set (r := N mod D) in *.
  destruct (Z.ltb_spec (2 * r) D); [nia|].
  destruct (Z.ltb_spec D (2 * r)); [nia|].
  destruct (Z.even q); nia.
Qed.

Lemma near_compose D M n c k :
  0 < n -> 100 * n < D ->
  2 * Z.abs (k * D - 100 * M) <= D ->
  2 * Z.abs (M * n - c * D) <= n ->
  2 * Z.abs (k * n - 100 * c) <= n.
Proof.
  intros Hn HD Ha Hb.
  set (a := k * D - 100 * M) in *. set (b := M * n - c * D) in *.
  assert (Heq : D * (k * n - 100 * c) = n * a + 100 * b) by (subst a b; ring).
  set (z := k * n - 100 * c) in *.
  destruct (Z.le_gt_cases (2 * Z.abs z) n) as [|Hgt]; [assumption|]. exfalso.
  assert (Hz : n + 1 <= 2 * Z.abs z) by lia.
  assert (H1 : D * (n + 1) <= D * (2 * Z.abs z))
    by (apply Z.mul_le_mono_nonneg_l; lia).
  assert (H2 : D * (2 * Z.abs z) = 2 * Z.abs (n * a + 100 * b)).
  { rewrite <- Heq, Z.abs_mul, (Z.abs_eq D) by lia. ring. }
  assert (H3 : Z.abs (n * a + 100 * b) <= n * Z.abs a + 100 * Z.abs b).
  { eapply Z.le_trans; [apply Z.abs_triangle|].
    rewrite !Z.abs_mul, (Z.abs_eq n), (Z.abs_eq 100) by lia. lia. }
  assert (H4 : n * (2 * Z.abs a) <= n * D)
    by (apply Z.mul_le_mono_nonneg_l; lia).
  lia.
Qed.

(** The share [c / n] of [c] votes among [n], divided as floats and rounded
    to two decimals, is the float of [k / 100] for an integer [k] nearest
    to [100 * c / n]. *)
Lemma round_share c n :
  0 < c <= n -> n < 2 ^ 45 ->
  exists k,
    Py.round (PrimFloat.div (Py.float_of_Z c) (Py.float_of_Z n)) 2 = hundredths k
    /\ nearest_hundredth c n k.
Proof.
  intros Hc Hn. unfold nearest_hundredth.
  destruct (Prim2SF_div_pos c n Hc ltac:(lia)) as (M & u & HSF & Hu & Hnear).
  unfold Py.round. rewrite HSF.
  destruct (Z.leb_spec 0 (- u)); [lia|].
  rewrite Z.opp_involutive. change (10 ^ Z.of_nat 2) with 100.
  set (k := Py.round_half_even (Zpos M * 100) (2 ^ u)).
  exists k. split; [reflexivity|].
  assert (HD : 2 ^ 52 <= 2 ^ u) by (apply Z.pow_le_mono_r; lia).
  pose proof (round_half_even_near (Zpos M * 100) (2 ^ u) ltac:(lia)) as Hk.
  fold k in Hk.
  apply (near_compose (2 ^ u) (Zpos M)); lia.
Qed.

End Floats.

(** ** Post-processing a list of generations *)

Lemma mapM_Ok_inv {A B} (f : A → outcome B) (l : list A) ys :
  mapM f l = Ok ys → Forall2 (λ x y, f x = Ok y) l ys.
Proof.
  revert ys. induction l as [|x l IH]; intros ys; simpl.
  - intros [= <-]. constructor.
  - destruct (f x) as [y|e] eqn:Hx; [|discriminate]. cbn.
    destruct (mapM f l) as [k|e]; [|discriminate]. cbn.
    intros [= <-]. constructor; [assumption | by apply IH].
Qed.

Lemma mapM_total {A B} (f : A → outcome B) (l : list A) :
  (∀ x, ∃ y, f x = Ok y) → ∃ ys, mapM f l = Ok ys.
Proof.
  intros Hf. induction l as [|x l [k Hk]]; simpl; [by eexists|].
  destruct (Hf x) as [y ->]. rewrite Hk. by eexists.
Qed.

Lemma mapM_pure {A B} (f : A → outcome B) (g : A → B) (l : list A) :
  (∀ x, f x = Ok (g x)) → mapM f l = Ok (g <$> l).
Proof.
  intros Hf. induction l as [|x l IH]; [reflexivity|].
  change (mapM f (x :: l)) with (y ← f x; k ← mapM f l; mret (y :: k)).
  rewrite Hf, IH. reflexivity.
Qed.

Lemma mapM_raises {A B} (f : A → outcome B) (l : list A) x e :
  (∀ x, f x = Raise e) → mapM f (x :: l) = Raise e.
Proof. intros Hf. simpl. by rewrite Hf. Qed.

(** ** The loop body of [__call__] *)

Section Judge.

Variable re_compile : string → outcome (string → option string).

Abbreviation judge := (Phi3Evaluator.judge re_compile).
Abbreviation clean_outputs := (Phi3Evaluator.clean_outputs re_compile).
Abbreviation parsed_outputs := (Phi3Evaluator.parsed_outputs re_compile).
Abbreviation _postprocess_output := (Phi3Evaluator._postprocess_output re_compile).
Abbreviation pattern_compiles := (Phi3Evaluator.pattern_compiles re_compile).
Abbreviation __call__ := (Phi3Evaluator.__call__ re_compile).
Abbreviation llm_outputs := Phi3Evaluator.llm_outputs.
Abbreviation pipeline_outputs := Phi3Evaluator.pipeline_outputs.

(** A pattern that compiles is searched without an exception, in any
    text. *)
Lemma postprocess_total self llm_out :
  pattern_compiles self → ∃ parsed, _postprocess_output self llm_out = Ok parsed.
Proof.
  unfold Phi3Evaluator.pattern_compiles, Phi3Evaluator._postprocess_output,
    Phi3Evaluator.re_search.
  destruct (Phi3Evaluator.regex_str self) as [[|c pattern]|]; [by eexists| |by eexists].
  intros [search ->]. cbn. destruct (search llm_out); by eexists.
Qed.

(** And one text that was searched shows that the pattern compiles. *)
Lemma postprocess_compiles self llm_out parsed :
  _postprocess_output self llm_out = Ok parsed → pattern_compiles self.
Proof.
  unfold Phi3Evaluator.pattern_compiles, Phi3Evaluator._postprocess_output,
    Phi3Evaluator.re_search.
  destruct (Phi3Evaluator.regex_str self) as [[|c pattern]|]; [done| |done].
  destruct (re_compile (String c pattern)) as [search|e]; [by eexists | discriminate].
Qed.

(** What does not compile raises at every text. *)
Lemma postprocess_raises self pattern e llm_out :
  Phi3Evaluator.regex_str self = Some pattern → pattern ≠ "" →
  re_compile pattern = Raise e →
  _postprocess_output self llm_out = Raise e.
Proof.
  intros Hre Hne He.
  unfold Phi3Evaluator._postprocess_output, Phi3Evaluator.re_search.
  rewrite Hre. destruct pattern; [congruence|]. by rewrite He.
Qed.

Lemma parsed_total self output :
  pattern_compiles self → ∃ parsed, parsed_outputs self output = Ok parsed.
Proof.
  intros Hc. apply mapM_total. intros text. by apply postprocess_total.
Qed.

Lemma clean_of_parsed self output parsed :
  parsed_outputs self output = Ok parsed →
  clean_outputs self output = Ok (filter (λ o, o ≠ "Unparsable") parsed).
Proof. intros H. unfold Phi3Evaluator.clean_outputs. by rewrite H. Qed.

Lemma clean_inv self output clean :
  clean_outputs self output = Ok clean →
  ∃ parsed, parsed_outputs self output = Ok parsed
            ∧ clean = filter (λ o, o ≠ "Unparsable") parsed.
Proof.
  unfold Phi3Evaluator.clean_outputs.
  destruct (parsed_outputs self output) as [parsed|e]; [|discriminate].
  intros [= <-]. by exists parsed.
Qed.

(** A parsed output shows that the pattern compiles. *)
Lemma parsed_compiles self output parsed o :
  parsed_outputs self output = Ok parsed → o ∈ parsed → pattern_compiles self.
Proof.
  intros Hp Ho. apply mapM_Ok_inv in Hp.
  apply list_elem_of_lookup in Ho as [i Hi].
  destruct (Forall2_lookup_r _ _ _ _ _ Hp Hi) as (text & _ & Htext).
  by eapply postprocess_compiles.
Qed.

Lemma clean_compiles self output clean :
  clean_outputs self output = Ok clean → clean ≠ [] → pattern_compiles self.
Proof.
  intros (parsed & Hp & ->)%clean_inv Hne.
  destruct (filter _ parsed) as [|o os] eqn:Hf; [congruence|].
  assert (Ho : o ∈ filter (λ o : string, o ≠ "Unparsable") parsed)
    by (rewrite Hf; left).
  apply list_elem_of_filter in Ho as [_ Ho]. by eapply parsed_compiles.
Qed.

(** With a parsed output at hand the body yields the winner of the vote and
    the rounded share of its votes. *)
Lemma judge_voted self output clean :
  clean_outputs self output = Ok clean → clean ≠ [] →
  ∃ lbl ratio,
    judge self output = Ok (llm_outputs output, lbl, round ratio 2)
    ∧ truediv (Z.of_nat (count lbl clean)) (Z.of_nat (length clean)) = Ok ratio
    ∧ lbl ∈ clean
    ∧ (∀ k, count k clean ≤ count lbl clean)
    ∧ (∀ k, k ≠ lbl → count k clean = count lbl clean →
            first_index lbl clean < first_index k clean).
Proof.
  intros Hclean Hne. unfold Phi3Evaluator.judge. rewrite Hclean. cbn.
  destruct (most_common_winner _ Hne) as (lbl & Hw & Hin & Hmax & Hfirst).
  destruct clean as [|c cs]; [congruence|].
  rewrite Hw. simpl item0.
  assert (Hdiv : ∃ ratio,
    truediv (Z.of_nat (count lbl (c :: cs))) (Z.of_nat (length (c :: cs)))
    = Ok ratio).
  { unfold truediv. simpl length.
    destruct (Z.eqb_spec (Z.of_nat (S (length cs))) 0); [lia | eauto]. }
  destruct Hdiv as [ratio Hdiv]. exists lbl, ratio.
  split; [|auto]. cbn [mbind outcome_bind fst snd]. rewrite Hdiv. reflexivity.
Qed.

(** Without one it yields the sentinel. *)
Lemma judge_unparsable self output :
  clean_outputs self output = Ok [] →
  judge self output = Ok (llm_outputs output, "Unparsable", (-1)%float).
Proof. intros H. unfold Phi3Evaluator.judge. rewrite H. reflexivity. Qed.

Lemma judge_total self output :
  pattern_compiles self → ∃ y, judge self output = Ok y.
Proof.
  intros Hc. destruct (parsed_total self output Hc) as [parsed Hp].
  pose proof (clean_of_parsed _ _ _ Hp) as Hclean.
  destruct (filter _ parsed) as [|o os] eqn:Hf.
  - rewrite judge_unparsable by assumption. eauto.
  - destruct (judge_voted self output _ Hclean) as (lbl & ratio & Hj & _);
      [discriminate | eauto].
Qed.

(** [__call__] on prompts that were produced without an exception, with a
    pattern that compiles, yields for every output of the pipeline and in
    the pipeline's order what the loop body makes of it, and ends
    normally. *)
Lemma call_yields self prompts max_output_tokens batch_size :
  pattern_compiles self →
  ∃ ys,
    __call__ self (prompts, None) max_output_tokens batch_size = (ys, None)
    ∧ Forall2 (λ output y, judge self output = Ok y)
        (pipeline_outputs self prompts max_output_tokens batch_size) ys.
Proof.
  intros Hc. unfold Phi3Evaluator.__call__. simpl.
  apply gen_for_total. intros output _. by apply judge_total.
Qed.

Lemma call_yields_at self prompts max_output_tokens batch_size i output :
  pattern_compiles self →
  pipeline_outputs self prompts max_output_tokens batch_size !! i = Some output →
  ∃ y, judge self output = Ok y
       ∧ (__call__ self (prompts, None) max_output_tokens batch_size).1 !! i
         = Some y.
Proof.
  intros Hc Hi.
  destruct (call_yields self prompts max_output_tokens batch_size Hc)
    as (ys & -> & Hall).
  destruct (Forall2_lookup_l _ _ _ _ _ Hall Hi) as (y & Hy & Hj). eauto.
Qed.

(** ** The vote of [__call__] *)

Lemma count_le_length k l : count k l ≤ length l.
Proof. unfold count. apply length_filter. Qed.

(** C1. For every call of [__call__] and every output of the pipeline with at
    least one generation that is not mapped to "Unparsable", the mapped label
    that is yielded is a label of greatest frequency among the parsed
    outputs, and the agreement is the count of that label divided by the
    number of parsed outputs, rounded to two decimals: it is what [round]
    makes of the float quotient of the two numbers, and, for fewer than
    2^45 parsed outputs, that is the float of a decimal [k / 100] where [k]
    is an integer nearest to a hundred times the share. *)
Theorem call_majority_vote self prompts max_output_tokens batch_size i output
    parsed :
  pipeline_outputs self prompts max_output_tokens batch_size !! i = Some output →
  parsed_outputs self output = Ok parsed →
  (∃ o, o ∈ parsed ∧ o ≠ "Unparsable") →
  let clean := filter (λ o, o ≠ "Unparsable") parsed in
  ∃ lbl agreement,
    (__call__ self (prompts, None) max_output_tokens batch_size).1 !! i
    = Some (llm_outputs output, lbl, agreement)
    ∧ lbl ∈ clean
    ∧ (∀ k, count k clean ≤ count lbl clean)
    ∧ (∃ ratio,
         truediv (Z.of_nat (count lbl clean)) (Z.of_nat (length clean)) = Ok ratio
         ∧ agreement = round ratio 2)
    ∧ ((Z.of_nat (length clean) < 2 ^ 45)%Z →
       ∃ k, agreement = hundredths k
            ∧ nearest_hundredth (Z.of_nat (count lbl clean))
                (Z.of_nat (length clean)) k).
Proof.
  intros Hi Hparsed (o & Ho & Hne) clean.
  pose proof (clean_of_parsed _ _ _ Hparsed) as Hclean. fold clean in Hclean.
  assert (Hin : o ∈ clean) by (apply list_elem_of_filter; by split).
  assert (Hcne : clean ≠ []) by (intros Hnil; rewrite Hnil in Hin; inversion Hin).
  destruct (judge_voted self output clean Hclean Hcne)
    as (lbl & ratio & Hj & Hdiv & Hlbl & Hmax & _).
  destruct (call_yields_at self prompts max_output_tokens batch_size i output)
    as (y & Hy & Hcall); [by eapply parsed_compiles | assumption |].
  exists lbl, (round ratio 2). rewrite Hcall.
  split; [congruence|]. split; [assumption|]. split; [assumption|].
  split; [by exists ratio|]. intros Hlen.
  pose proof (count_le_length lbl clean) as Hle.
  apply count_pos in Hlbl.
  destruct (round_share (Z.of_nat (count lbl clean)) (Z.of_nat (length clean)))
    as (k & Hk & Hnear); [lia | assumption |].
  exists k. split; [|assumption]. rewrite <- Hk. f_equal.
  unfold truediv in Hdiv.
  destruct (Z.eqb_spec (Z.of_nat (length clean)) 0); [lia|]. congruence.
Qed.

(** C4. For every call of [__call__] on an evaluator whose pattern compiles
    and every output of the pipeline all of whose generations are mapped to
    "Unparsable", the raw outputs are yielded with the mapped label
    "Unparsable" and the agreement -1.0. *)
Theorem call_all_unparsable self prompts max_output_tokens batch_size i output
    parsed :
  pattern_compiles self →
  pipeline_outputs self prompts max_output_tokens batch_size !! i = Some output →
  parsed_outputs self output = Ok parsed →
  (∀ o, o ∈ parsed → o = "Unparsable") →
  (__call__ self (prompts, None) max_output_tokens batch_size).1 !! i
  = Some (llm_outputs output, "Unparsable", (-1)%float).
Proof.
  intros Hc Hi Hparsed Hall.
  assert (Hnil : clean_outputs self output = Ok []).
  { rewrite (clean_of_parsed _ _ _ Hparsed). f_equal.
    destruct (filter _ _) as [|c cs] eqn:Hf; [reflexivity|].
    assert (Hin : c ∈ filter (λ o : string, o ≠ "Unparsable") parsed)
      by (rewrite Hf; left).
    apply list_elem_of_filter in Hin as [Hc1 Hc2]. apply Hall in Hc2. congruence. }
  destruct (call_yields_at _ _ _ _ _ _ Hc Hi) as (y & Hy & Hcall).
  rewrite judge_unparsable in Hy by assumption. injection Hy as <-.
  exact Hcall.
Qed.

(** C6. When the parsed outputs of a batch element are exactly
    ['Relevant', 'Relevant', 'Not Relevant'], [__call__] yields the mapped
    label 'Relevant' with agreement 0.67. *)
Theorem call_two_of_three self prompts max_output_tokens batch_size i output :
  pipeline_outputs self prompts max_output_tokens batch_size !! i = Some output →
  clean_outputs self output = Ok ["Relevant"; "Relevant"; "Not Relevant"] →
  (__call__ self (prompts, None) max_output_tokens batch_size).1 !! i
  = Some (llm_outputs output, "Relevant", 0.67%float).
Proof.
  intros Hi Hclean.
  destruct (call_yields_at self prompts max_output_tokens batch_size i output)
    as (y & Hy & Hcall); [by eapply clean_compiles | assumption |].
  unfold Phi3Evaluator.judge in Hy. rewrite Hclean in Hy.
  injection Hy as <-. exact Hcall.
Qed.

(** C9. When two or more labels are tied for the greatest count among the
    parsed outputs of a batch element, [__call__] yields the tied label whose
    first occurrence comes earliest: the yielded label has the greatest
    count, and every other label with the greatest count is first seen
    later. *)
Theorem call_tie_first_seen self prompts max_output_tokens batch_size i output
    clean :
  pipeline_outputs self prompts max_output_tokens batch_size !! i = Some output →
  clean_outputs self output = Ok clean →
  clean ≠ [] →
  ∃ lbl agreement,
    (__call__ self (prompts, None) max_output_tokens batch_size).1 !! i
    = Some (llm_outputs output, lbl, agreement)
    ∧ lbl ∈ clean
    ∧ (∀ k, count k clean ≤ count lbl clean)
    ∧ (∀ k, k ≠ lbl →
            (∀ k', count k' clean ≤ count k clean) →
            first_index lbl clean < first_index k clean).
Proof.
  intros Hi Hclean Hne.
  destruct (judge_voted self output clean Hclean Hne)
    as (lbl & ratio & Hj & _ & Hin & Hmax & Hfirst).
  destruct (call_yields_at self prompts max_output_tokens batch_size i output)
    as (y & Hy & Hcall); [by eapply clean_compiles | assumption |].
  exists lbl, (round ratio 2). rewrite Hcall.
  split; [congruence|]. split; [assumption|]. split; [assumption|].
  intros k Hk Hkmax. apply Hfirst; [assumption|].
  specialize (Hmax k). specialize (Hkmax lbl). lia.
Qed.

End Judge.

Lemma call_majority_vote_witness :
  let texts := ["It is relevant"; "Not Relevant"; "Not relevant."; "Not Relevant"; "no idea"] in
  let clean := ["relevant"; "Not Relevant"; "Not relevant"; "Not Relevant"] in
  ∃ lbl agreement,
    (Phi3Evaluator.__call__ Re.compile_ignorecase (qa_evaluator texts)
       (["a prompt"], None) 4 2).1 !! 0
    = Some (texts, lbl, agreement)
    ∧ lbl ∈ clean
    ∧ (∀ k, count k clean ≤ count lbl clean)
    ∧ (∃ ratio,
         truediv (Z.of_nat (count lbl clean)) 4 = Ok ratio
         ∧ agreement = round ratio 2)
    ∧ ((4 < 2 ^ 45)%Z →
       ∃ k, agreement = hundredths k
            ∧ nearest_hundredth (Z.of_nat (count lbl clean)) 4 k).
Proof.
  intros texts clean.
  apply (call_majority_vote Re.compile_ignorecase (qa_evaluator texts)
           ["a prompt"] 4 2 0 (answers texts)
           ["relevant"; "Not Relevant"; "Not relevant"; "Not Relevant"; "Unparsable"]).
  - reflexivity.
  - reflexivity.
  - exists "relevant". split; [left | discriminate].
Defined.

(** The run behind that witness, evaluated: "Not Relevant" has two of the
    four parsed outputs, and the share 0.5 is the float of 50 / 100. *)
Example majority_vote_run :
  Phi3Evaluator.__call__ Re.compile_ignorecase
    (qa_evaluator ["It is relevant"; "Not Relevant"; "Not relevant."; "Not Relevant"; "no idea"])
    (["a prompt"], None) 4 2
  = ([(["It is relevant"; "Not Relevant"; "Not relevant."; "Not Relevant"; "no idea"],
       "Not Relevant", 0.5%float)], None)
  ∧ hundredths 50 = 0.5%float
  ∧ nearest_hundredth 2 4 50.
Proof. split; [reflexivity|]. split; [reflexivity|]. unfold nearest_hundredth. lia. Qed.

Lemma call_all_unparsable_witness :
  let texts := ["I cannot say"; "maybe"] in
  (Phi3Evaluator.__call__ Re.compile_ignorecase (qa_evaluator texts)
     (["a prompt"], None) 4 2).1 !! 0
  = Some (texts, "Unparsable", (-1)%float).
Proof.
  intros texts.
  apply (call_all_unparsable Re.compile_ignorecase (qa_evaluator texts)
           ["a prompt"] 4 2 0 (answers texts) ["Unparsable"; "Unparsable"]).
  - by eexists.
  - reflexivity.
  - reflexivity.
  - intros o Ho.
    repeat (apply elem_of_cons in Ho as [-> | Ho]; [reflexivity|]).
    inversion Ho.
Defined.

Lemma call_two_of_three_witness :
  let texts := ["Relevant"; "I do not know"; "Relevant"; "Not Relevant"] in
  Phi3Evaluator.clean_outputs Re.compile_ignorecase (qa_evaluator texts)
    (answers texts) = Ok ["Relevant"; "Relevant"; "Not Relevant"]
  ∧ (Phi3Evaluator.__call__ Re.compile_ignorecase (qa_evaluator texts)
       (["a prompt"], None) 4 2).1 !! 0
    = Some (texts, "Relevant", 0.67%float).
Proof.
  intros texts. split; [reflexivity|].
  apply (call_two_of_three Re.compile_ignorecase (qa_evaluator texts)
           ["a prompt"] 4 2 0 (answers texts)); reflexivity.
Defined.

Lemma call_tie_first_seen_witness :
  let texts := ["Not Relevant"; "Relevant"; "Relevant"; "Not Relevant"] in
  ∃ lbl agreement,
    (Phi3Evaluator.__call__ Re.compile_ignorecase (qa_evaluator texts)
       (["a prompt"], None) 4 2).1 !! 0
    = Some (texts, lbl, agreement)
    ∧ lbl ∈ texts
    ∧ (∀ k, count k texts ≤ count lbl texts)
    ∧ (∀ k, k ≠ lbl → (∀ k', count k' texts ≤ count k texts) →
            first_index lbl texts < first_index k texts).
Proof.
  intros texts.
  apply (call_tie_first_seen Re.compile_ignorecase (qa_evaluator texts)
           ["a prompt"] 4 2 0 (answers texts) texts).
  - reflexivity.
  - reflexivity.
  - discriminate.
Defined.

(** The run behind the last witness, evaluated: two labels with two votes
    each, and the one seen first wins. *)
Example tied_vote_run :
  Phi3Evaluator.__call__ Re.compile_ignorecase
    (qa_evaluator ["Not Relevant"; "Relevant"; "Relevant"; "Not Relevant"])
    (["a prompt"], None) 4 2
  = ([(["Not Relevant"; "Relevant"; "Relevant"; "Not Relevant"],
       "Not Relevant", 0.5%float)], None).
Proof. reflexivity. Qed.

(** ** Post-processing and the sentinel *)

Section Postprocess.

Variable re_compile : string → outcome (string → option string).

Abbreviation re_search := (Phi3Evaluator.re_search re_compile).
Abbreviation _postprocess_output := (Phi3Evaluator._postprocess_output re_compile).
Abbreviation clean_outputs := (Phi3Evaluator.clean_outputs re_compile).
Abbreviation parsed_outputs := (Phi3Evaluator.parsed_outputs re_compile).
Abbreviation __call__ := (Phi3Evaluator.__call__ re_compile).

(** C3 (amended). With a non-empty list of response types the evaluator
    searches with the pattern "(" + "|".join(response_types) + ")"; where the
    search finds no match the result is exactly "Unparsable", and where it
    finds one the result is the matched text, which differs from "Unparsable"
    whenever the matched text does.  Where the pattern does not compile the
    exception of [re.search] is the exception of the method. *)
Theorem postprocess_match_or_sentinel pipe response_types iterations temperature
    llm_out :
  response_types ≠ [] →
  let self := Phi3Evaluator.__init__ pipe response_types iterations temperature in
  let pattern := "(" +:+ str_join "|" response_types +:+ ")" in
  Phi3Evaluator.regex_str self = Some pattern
  ∧ (re_search pattern llm_out = Ok None →
     _postprocess_output self llm_out = Ok "Unparsable")
  ∧ (∀ group, re_search pattern llm_out = Ok (Some group) →
       _postprocess_output self llm_out = Ok group
       ∧ (group ≠ "Unparsable" →
          _postprocess_output self llm_out ≠ Ok "Unparsable"))
  ∧ (∀ e, re_search pattern llm_out = Raise e →
       _postprocess_output self llm_out = Raise e).
Proof.
  intros Hne self pattern.
  assert (Hre : Phi3Evaluator.regex_str self = Some pattern)
    by (destruct response_types; [congruence | reflexivity]).
  unfold Phi3Evaluator._postprocess_output. rewrite Hre.
  split; [reflexivity|]. subst pattern. cbn [String.append].
  split; [|split].
  - intros ->. reflexivity.
  - intros group ->. split; [reflexivity|].
    intros Hg Heq. apply Hg. cbn in Heq. by injection Heq.
  - intros e ->. reflexivity.
Qed.

(** C10 (amended). With an empty list of response types [regex_str] is [None]
    and every LLM output is returned unchanged.  So an output is mapped to
    "Unparsable" exactly when it is that string itself, the vote runs over
    the raw outputs other than "Unparsable", and the sentinel
    ("Unparsable", -1.0) is yielded exactly when no such output is left. *)
Theorem empty_response_types pipe iterations temperature :
  let self := Phi3Evaluator.__init__ pipe [] iterations temperature in
  Phi3Evaluator.regex_str self = None
  ∧ (∀ llm_out, _postprocess_output self llm_out = Ok llm_out)
  ∧ (∀ output,
       clean_outputs self output
       = Ok (filter (λ o, o ≠ "Unparsable") (Phi3Evaluator.llm_outputs output)))
  ∧ (∀ prompts max_output_tokens batch_size i output,
       Phi3Evaluator.pipeline_outputs self prompts max_output_tokens batch_size
         !! i = Some output →
       ((__call__ self (prompts, None) max_output_tokens batch_size).1 !! i
        = Some (Phi3Evaluator.llm_outputs output, "Unparsable", (-1)%float)
        ↔ ∀ o, o ∈ Phi3Evaluator.llm_outputs output → o = "Unparsable")).
Proof.
  intros self.
  assert (Hc : Phi3Evaluator.pattern_compiles re_compile self) by exact I.
  assert (Hid : ∀ llm_out, _postprocess_output self llm_out = Ok llm_out)
    by reflexivity.
  assert (Hparsed : ∀ output,
    parsed_outputs self output = Ok (Phi3Evaluator.llm_outputs output)).
  { intros output. unfold Phi3Evaluator.parsed_outputs.
    rewrite (mapM_pure _ id) by exact Hid. by rewrite list_fmap_id. }
  assert (Hclean : ∀ output,
    clean_outputs self output
    = Ok (filter (λ o, o ≠ "Unparsable") (Phi3Evaluator.llm_outputs output))).
  { intros output. by apply clean_of_parsed. }
  split; [reflexivity|]. split; [assumption|]. split; [assumption|].
  intros prompts max_output_tokens batch_size i output Hi.
  destruct (call_yields_at re_compile _ _ _ _ _ _ Hc Hi) as (y & Hy & Hcall).
  rewrite Hcall. split.
  - intros [= ->] o Ho.
    destruct (decide (o = "Unparsable")) as [|Hne]; [assumption|]. exfalso.
    assert (Hin : o ∈ filter (λ o : string, o ≠ "Unparsable")
                      (Phi3Evaluator.llm_outputs output))
      by (apply list_elem_of_filter; by split).
    destruct (judge_voted re_compile self output _ (Hclean output))
      as (lbl & ratio & Hj & _ & Hlbl & _).
    { intros Hnil. rewrite Hnil in Hin. inversion Hin. }
    rewrite Hj in Hy. injection Hy as Hl _.
    apply list_elem_of_filter in Hlbl as [Hlbl _]. congruence.
  - intros Hall.
    assert (Hnil : clean_outputs self output = Ok []).
    { rewrite Hclean. f_equal.
      destruct (filter _ _) as [|c cs] eqn:Hf; [reflexivity|].
      assert (Hin : c ∈ filter (λ o : string, o ≠ "Unparsable")
                        (Phi3Evaluator.llm_outputs output)) by (rewrite Hf; left).
      apply list_elem_of_filter in Hin as [Hc1 Hc2]. apply Hall in Hc2.
      congruence. }
    rewrite judge_unparsable in Hy by assumption. congruence.
Qed.

End Postprocess.

Lemma postprocess_match_or_sentinel_witness :
  let self := qa_evaluator [] in
  let llm_out := "It is relevant." in
  Phi3Evaluator.regex_str self = Some "(Relevant|Not Relevant)"
  ∧ (Phi3Evaluator.re_search Re.compile_ignorecase "(Relevant|Not Relevant)"
       llm_out = Ok None →
     Phi3Evaluator._postprocess_output Re.compile_ignorecase self llm_out
     = Ok "Unparsable")
  ∧ (∀ group,
       Phi3Evaluator.re_search Re.compile_ignorecase "(Relevant|Not Relevant)"
         llm_out = Ok (Some group) →
       Phi3Evaluator._postprocess_output Re.compile_ignorecase self llm_out
       = Ok group
       ∧ (group ≠ "Unparsable" →
          Phi3Evaluator._postprocess_output Re.compile_ignorecase self llm_out
          ≠ Ok "Unparsable"))
  ∧ (∀ e,
       Phi3Evaluator.re_search Re.compile_ignorecase "(Relevant|Not Relevant)"
         llm_out = Raise e →
       Phi3Evaluator._postprocess_output Re.compile_ignorecase self llm_out
       = Raise e).
Proof.
  apply (postprocess_match_or_sentinel Re.compile_ignorecase (scripted [])
           ["Relevant"; "Not Relevant"] 3 0.5%float "It is relevant.").
  discriminate.
Defined.

(** The three ways of the method on concrete inputs: a match, which keeps
    the casing of the text; no match; and a list of response types that is
    not a regular expression. *)
Example postprocess_runs :
  Phi3Evaluator._postprocess_output Re.compile_ignorecase (qa_evaluator [])
    "It is RELEVANT, I think." = Ok "RELEVANT"
  ∧ Phi3Evaluator._postprocess_output Re.compile_ignorecase (qa_evaluator [])
      "No idea." = Ok "Unparsable"
  ∧ Phi3Evaluator._postprocess_output Re.compile_ignorecase
      (evaluator_of ["+1"; "-1"] []) "+1" = Raise re_error.
Proof. repeat split. Qed.

(** The counterexample to C3 as stated: a response type that is the word
    "Unparsable" is matched, and the matched text is the sentinel. *)
Lemma postprocess_match_is_sentinel :
  let self := evaluator_of ["Unparsable"] [] in
  Phi3Evaluator.regex_str self = Some "(Unparsable)"
  ∧ Re.search_ignorecase "(Unparsable)" "Unparsable" = Ok (Some "Unparsable")
  ∧ Phi3Evaluator._postprocess_output Re.compile_ignorecase self "Unparsable"
    = Ok "Unparsable".
Proof. repeat split. Qed.

Lemma empty_response_types_witness :
  let texts := ["yes"; "Unparsable"; "yes"] in
  let self := evaluator_of [] texts in
  Phi3Evaluator._postprocess_output Re.compile_ignorecase self "Unparsable"
  = Ok "Unparsable"
  ∧ Phi3Evaluator.clean_outputs Re.compile_ignorecase self (answers texts)
    = Ok ["yes"; "yes"]
  ∧ ((Phi3Evaluator.__call__ Re.compile_ignorecase self (["a prompt"], None) 4 2).1
       !! 0 = Some (texts, "Unparsable", (-1)%float)
     ↔ ∀ o, o ∈ texts → o = "Unparsable").
Proof.
  intros texts self.
  destruct (empty_response_types Re.compile_ignorecase (scripted texts) 3 0.5%float)
    as (_ & Hid & Hclean & Hcall).
  split; [apply Hid|]. split; [apply Hclean|].
  apply (Hcall ["a prompt"] 4%Z 2%Z 0 (answers texts)). reflexivity.
Defined.

(** The counterexample to C10 as stated: without response types the raw
    output "Unparsable" is mapped to "Unparsable", and a batch element whose
    outputs are all that string gets the sentinel. *)
Lemma empty_response_types_sentinel :
  let self := evaluator_of [] ["Unparsable"] in
  Phi3Evaluator.regex_str self = None
  ∧ Phi3Evaluator._postprocess_output Re.compile_ignorecase self "Unparsable"
    = Ok "Unparsable"
  ∧ Phi3Evaluator.__call__ Re.compile_ignorecase self (["a prompt"], None) 4 2
    = ([(["Unparsable"], "Unparsable", (-1)%float)], None).
Proof. repeat split. Qed.

(** ** Decoding arguments *)

(** C7. [_get_generation_args] returns the sampled configuration (do_sample
    True, the configured temperature, num_return_sequences equal to
    iterations, num_beams equal to 2 * iterations) exactly when the
    configured temperature is strictly greater than 0.0; otherwise it
    returns the greedy configuration with do_sample False and
    num_return_sequences 1, whatever the iterations. *)
Theorem generation_args_by_temperature (self : Phi3Evaluator.t) :
  let args := Phi3Evaluator._get_generation_args self in
  let sampled :=
    args !! "do_sample" = Some (Phi3Evaluator.PBool true)
    ∧ args !! "temperature"
      = Some (Phi3Evaluator.PFloat (Phi3Evaluator._temperature self))
    ∧ args !! "num_return_sequences"
      = Some (Phi3Evaluator.PInt (Phi3Evaluator._iterations self))
    ∧ args !! "num_beams"
      = Some (Phi3Evaluator.PInt (2 * Phi3Evaluator._iterations self))
    ∧ args !! "return_full_text" = Some (Phi3Evaluator.PBool false) in
  let greedy :=
    args !! "do_sample" = Some (Phi3Evaluator.PBool false)
    ∧ args !! "num_return_sequences" = Some (Phi3Evaluator.PInt 1)
    ∧ args !! "temperature" = None
    ∧ args !! "num_beams" = None
    ∧ args !! "return_full_text" = Some (Phi3Evaluator.PBool false) in
  (sampled ↔ PrimFloat.ltb 0 (Phi3Evaluator._temperature self) = true)
  ∧ (PrimFloat.ltb 0 (Phi3Evaluator._temperature self) = false → greedy).
Proof.
  intros args sampled greedy. subst args sampled greedy.
  unfold Phi3Evaluator._get_generation_args.
  destruct (PrimFloat.ltb 0 (Phi3Evaluator._temperature self)).
  - split; [|discriminate]. split; [reflexivity|]. intros _. repeat split.
  - split; [|intros _; repeat split].
    split; [|discriminate]. intros [Hs _]. discriminate Hs.
Qed.

Lemma generation_args_by_temperature_witness :
  let args := Phi3Evaluator._get_generation_args (qa_evaluator []) in
  args !! "do_sample" = Some (Phi3Evaluator.PBool true)
  ∧ args !! "temperature" = Some (Phi3Evaluator.PFloat 0.5)
  ∧ args !! "num_return_sequences" = Some (Phi3Evaluator.PInt 3)
  ∧ args !! "num_beams" = Some (Phi3Evaluator.PInt 6)
  ∧ args !! "return_full_text" = Some (Phi3Evaluator.PBool false).
Proof.
  apply (generation_args_by_temperature (qa_evaluator [])). reflexivity.
Defined.

(** The greedy case on the notebook's own setting, TEMPERATURE = 0.0 and
    ITERATIONS = 1, and on a count of iterations that is then ignored. *)
Example generation_args_greedy :
  Phi3Evaluator._get_generation_args
    (Phi3Evaluator.__init__ (scripted []) ["Relevant"; "Not Relevant"] 7 0%float)
  = list_to_map [("return_full_text", Phi3Evaluator.PBool false);
                 ("do_sample", Phi3Evaluator.PBool false);
                 ("num_return_sequences", Phi3Evaluator.PInt 1)].
Proof. reflexivity. Qed.

(** ** The pattern of literal response types and its search *)

Lemma append_cons c (s t : string) : String c s +:+ t = String c (s +:+ t).
Proof. reflexivity. Qed.

Lemma append_empty_r (s : string) : s +:+ "" = s.
Proof.
  induction s as [|c s IH]; [reflexivity|]. rewrite append_cons. congruence.
Qed.

Lemma append_assoc (a b c : string) : (a +:+ b) +:+ c = a +:+ b +:+ c.
Proof.
  induction a as [|x a IH]; [reflexivity|]. rewrite !append_cons. by rewrite IH.
Qed.

Lemma strip_close_append (body : string) :
  Re.strip_close (body +:+ ")") = Some body.
Proof.
  induction body as [|c body IH]; [reflexivity|].
  rewrite append_cons. destruct body as [|d body]; [reflexivity|].
  rewrite append_cons in *. simpl in *. rewrite IH. reflexivity.
Qed.

Lemma literal_cons c s :
  Re.literal (String c s) = true → Re.metachar c = false ∧ Re.literal s = true.
Proof.
  unfold Re.literal. simpl. intros [[_ H1]%andb_prop H2]%andb_prop.
  split; [by apply negb_true_iff | assumption].
Qed.

Lemma split_on_literal_app x rest p ps :
  Re.literal x = true →
  Re.split_on "|" rest = p :: ps →
  Re.split_on "|" (x +:+ rest) = (x +:+ p) :: ps.
Proof.
  intros Hlit Hrest. induction x as [|c x IH]; [assumption|].
  apply literal_cons in Hlit as [Hc Hlit]. rewrite !append_cons. simpl.
  destruct (Ascii.eqb_spec c "|") as [->|_]; [discriminate Hc|].
  rewrite (IH Hlit). reflexivity.
Qed.

Lemma split_on_join (rts : list string) :
  rts ≠ [] → Forall (λ rt, Re.literal rt = true) rts →
  Re.split_on "|" (str_join "|" rts) = rts.
Proof.
  induction rts as [|x rts IH]; intros Hne Hlit; [congruence|].
  apply Forall_cons in Hlit as [Hx Hlit].
  destruct rts as [|y rts].
  - simpl. rewrite <- (append_empty_r x) at 1.
    rewrite (split_on_literal_app x "" "" []) by (assumption || reflexivity).
    by rewrite append_empty_r.
  - change (str_join "|" (x :: y :: rts))
      with (x +:+ String "|" (str_join "|" (y :: rts))).
    rewrite (split_on_literal_app x _ "" (y :: rts)).
    + by rewrite append_empty_r.
    + assumption.
    + change (Re.split_on "|" (String "|" (str_join "|" (y :: rts))))
        with ("" :: Re.split_on "|" (str_join "|" (y :: rts))).
      rewrite IH; [reflexivity | discriminate | assumption].
Qed.

(** The pattern built from literal response types is read back into them. *)
Lemma alternatives_of_pattern (rts : list string) :
  rts ≠ [] → Forall (λ rt, Re.literal rt = true) rts →
  Re.alternatives ("(" +:+ str_join "|" rts +:+ ")") = Some rts.
Proof.
  intros Hne Hlit. unfold Re.alternatives.
  rewrite append_cons. simpl Ascii.eqb. cbv iota.
  change ("" +:+ str_join "|" rts +:+ ")") with (str_join "|" rts +:+ ")").
  rewrite strip_close_append, split_on_join by assumption.
  assert (forallb Re.literal rts = true) as ->; [|reflexivity].
  clear Hne. induction Hlit as [|rt rts Hrt _ IH]; [reflexivity|].
  simpl. rewrite Hrt. exact IH.
Qed.

(** And it has something to repeat wherever it repeats: it compiles. *)
Lemma compile_of_literals (rts : list string) :
  rts ≠ [] → Forall (λ rt, Re.literal rt = true) rts →
  Re.compile_ignorecase ("(" +:+ str_join "|" rts +:+ ")")
  = Ok (Re.search_alternatives rts).
Proof.
  intros Hne Hlit. unfold Re.compile_ignorecase.
  rewrite alternatives_of_pattern by assumption.
  assert (Re.nothing_to_repeat ("(" +:+ str_join "|" rts +:+ ")") = false)
    as ->; [|reflexivity].
  destruct rts as [|x rts]; [congruence|].
  apply Forall_cons in Hlit as [Hx _].
  destruct x as [|c x].
  - destruct rts; reflexivity.
  - apply literal_cons in Hx as [Hc _].
    assert (Hshape : ∃ r, "(" +:+ str_join "|" (String c x :: rts) +:+ ")"
                          = String "(" (String c r)).
    { destruct rts; eexists; reflexivity. }
    destruct Hshape as [r ->]. simpl.
    destruct (Ascii.eqb_spec c "*") as [->|_]; [discriminate Hc|].
    destruct (Ascii.eqb_spec c "+") as [->|_]; [discriminate Hc|].
    reflexivity.
Qed.

(** *** Characters up to case *)

Lemma lower_of_upper a :
  upper_case a → Re.lower a = ascii_of_nat (nat_of_ascii a + 32).
Proof.
  intros [H1 H2]. unfold Re.lower.
  destruct (Nat.leb_spec 65 (nat_of_ascii a)); [|lia].
  destruct (Nat.leb_spec (nat_of_ascii a) 90); [reflexivity | lia].
Qed.

Lemma lower_of_other a : ¬ upper_case a → Re.lower a = a.
Proof.
  intros Hn. unfold Re.lower.
  destruct (Nat.leb_spec 65 (nat_of_ascii a)); [|reflexivity].
  destruct (Nat.leb_spec (nat_of_ascii a) 90); [|reflexivity].
  exfalso. apply Hn. split; assumption.
Qed.

Lemma upper_case_cases a : upper_case a ∨ ¬ upper_case a.
Proof. unfold upper_case. lia. Qed.

Lemma nat_of_shifted a :
  upper_case a → nat_of_ascii (ascii_of_nat (nat_of_ascii a + 32))
                 = nat_of_ascii a + 32.
Proof. intros [H1 H2]. apply nat_ascii_embedding. lia. Qed.

Lemma chr_ieq_sound a b :
  Re.chr_ieq a b = true → ignorecase_char a (String b "").
Proof.
  unfold Re.chr_ieq. intros H%Ascii.eqb_eq.
  destruct (upper_case_cases a) as [Ha|Ha], (upper_case_cases b) as [Hb|Hb].
  - rewrite !lower_of_upper in H by assumption.
    apply (f_equal nat_of_ascii) in H. rewrite !nat_of_shifted in H by assumption.
    assert (a = b) as ->; [|constructor].
    rewrite <- (ascii_nat_embedding a), <- (ascii_nat_embedding b).
    f_equal. lia.
  - rewrite lower_of_upper, (lower_of_other b) in H by assumption.
    rewrite <- H. by apply ic_lower.
  - rewrite (lower_of_other a), lower_of_upper in H by assumption.
    assert (Hn : nat_of_ascii a = nat_of_ascii b + 32)
      by (rewrite H; by apply nat_of_shifted).
    assert (b = ascii_of_nat (nat_of_ascii a - 32)) as ->.
    { rewrite Hn. replace (nat_of_ascii b + 32 - 32) with (nat_of_ascii b) by lia.
      by rewrite ascii_nat_embedding. }
    apply ic_upper. destruct Hb. unfold lower_case. lia.
  - rewrite !lower_of_other in H by assumption. subst b. constructor.
Qed.

Lemma chr_ieq_refl a : Re.chr_ieq a a = true.
Proof. unfold Re.chr_ieq. apply Ascii.eqb_refl. Qed.

Lemma chr_ieq_lower a :
  upper_case a → Re.chr_ieq a (ascii_of_nat (nat_of_ascii a + 32)) = true.
Proof.
  intros Ha. unfold Re.chr_ieq. apply Ascii.eqb_eq.
  rewrite lower_of_upper by assumption. symmetry. apply lower_of_other.
  unfold upper_case. rewrite nat_of_shifted by assumption.
  unfold upper_case in Ha. lia.
Qed.

Lemma chr_ieq_upper a :
  lower_case a → Re.chr_ieq a (ascii_of_nat (nat_of_ascii a - 32)) = true.
Proof.
  intros [H1 H2]. unfold Re.chr_ieq. apply Ascii.eqb_eq.
  assert (Hn : nat_of_ascii (ascii_of_nat (nat_of_ascii a - 32))
               = nat_of_ascii a - 32) by (apply nat_ascii_embedding; lia).
  rewrite (lower_of_other a) by (unfold upper_case; lia).
  rewrite lower_of_upper by (unfold upper_case; lia).
  rewrite Hn. replace (nat_of_ascii a - 32 + 32) with (nat_of_ascii a) by lia.
  by rewrite ascii_nat_embedding.
Qed.

(** The characters that lower-case to a given lower-case letter. *)
Lemma lower_inv a (c : ascii) :
  lower_case c → Re.lower a = c →
  a = c ∨ a = ascii_of_nat (nat_of_ascii c - 32).
Proof.
  intros [H1 H2] H. destruct (upper_case_cases a) as [Ha|Ha].
  - right. rewrite lower_of_upper in H by assumption. subst c.
    rewrite nat_of_shifted by assumption.
    replace (nat_of_ascii a + 32 - 32) with (nat_of_ascii a) by lia.
    by rewrite ascii_nat_embedding.
  - left. by rewrite lower_of_other in H.
Qed.

Lemma other_letters_sound a p :
  p ∈ Re.other_letters a → ignorecase_char a p.
Proof.
  unfold Re.other_letters.
  destruct (Ascii.eqb_spec (Re.lower a) "s") as [Hs|_].
  { intros ->%list_elem_of_singleton. apply ic_long_s.
    apply lower_inv in Hs; [exact Hs | split; apply Nat.leb_le; reflexivity]. }
  destruct (Ascii.eqb_spec (Re.lower a) "k") as [Hk|_].
  { intros ->%list_elem_of_singleton. apply ic_kelvin_sign.
    apply lower_inv in Hk; [exact Hk | split; apply Nat.leb_le; reflexivity]. }
  destruct (Ascii.eqb_spec (Re.lower a) "i") as [Hi|_]; [|by intros H; inversion H].
  apply lower_inv in Hi; [|split; apply Nat.leb_le; reflexivity].
  intros [->|Hp]%elem_of_cons; [by apply ic_dotted_capital_i|].
  apply list_elem_of_singleton in Hp as ->. by apply ic_dotless_i.
Qed.

Lemma strip_prefix_sound p text rest :
  Re.strip_prefix p text = Some rest → text = p +:+ rest.
Proof.
  revert text. induction p as [|a p IH]; intros text; simpl.
  - by intros [= ->].
  - destruct text as [|b text]; [discriminate|].
    destruct (Ascii.eqb_spec a b) as [->|_]; [|discriminate].
    intros H%IH. rewrite append_cons. by rewrite H.
Qed.

Lemma strip_prefix_complete p rest : Re.strip_prefix p (p +:+ rest) = Some rest.
Proof.
  induction p as [|a p IH]; [reflexivity|].
  rewrite append_cons. simpl. by rewrite Ascii.eqb_refl.
Qed.

Lemma match_letters_sound ps text p rest :
  Re.match_letters ps text = Some (p, rest) → p ∈ ps ∧ text = p +:+ rest.
Proof.
  induction ps as [|p' ps IH]; simpl; [discriminate|].
  destruct (Re.strip_prefix p' text) as [rest'|] eqn:Hp.
  - intros [= <- <-]. split; [left | by apply strip_prefix_sound].
  - intros [Hin Ht]%IH. split; [by right | assumption].
Qed.

Lemma match_char_sound a text piece rest :
  Re.match_char a text = Some (piece, rest) →
  ignorecase_char a piece ∧ text = piece +:+ rest.
Proof.
  unfold Re.match_char. destruct text as [|b text]; [discriminate|].
  destruct (Re.chr_ieq a b) eqn:Hab.
  - intros [= <- <-]. split; [by apply chr_ieq_sound | reflexivity].
  - intros [Hin Ht]%match_letters_sound.
    split; [by apply other_letters_sound | assumption].
Qed.

Lemma match_char_complete a piece rest :
  ignorecase_char a piece → Re.match_char a (piece +:+ rest) = Some (piece, rest).
Proof.
  intros H. destruct H as [|Ha|Ha|[-> | ->]|[-> | ->]|[-> | ->]|[-> | ->]];
    try reflexivity.
  - rewrite append_cons. unfold Re.match_char. by rewrite chr_ieq_refl.
  - rewrite append_cons. unfold Re.match_char. by rewrite chr_ieq_lower.
  - rewrite append_cons. unfold Re.match_char. by rewrite chr_ieq_upper.
Qed.

(** *** Literals and alternatives *)

Lemma match_literal_sound lit text m :
  Re.match_literal lit text = Some m →
  ignorecase_eq lit m ∧ ∃ post, text = m +:+ post.
Proof.
  revert text m. induction lit as [|a lit IH]; intros text m; simpl.
  - intros [= <-]. split; [constructor | by exists text].
  - destruct (Re.match_char a text) as [[piece rest]|] eqn:Hc; [|discriminate].
    destruct (Re.match_literal lit rest) as [m'|] eqn:Hm; [|discriminate].
    intros [= <-]. apply match_char_sound in Hc as [Hpiece ->].
    destruct (IH _ _ Hm) as (Heq & post & ->).
    split; [by constructor|]. exists post. by rewrite append_assoc.
Qed.

Lemma match_literal_complete lit m post :
  ignorecase_eq lit m → Re.match_literal lit (m +:+ post) = Some m.
Proof.
  induction 1 as [|a lit piece m Hpiece _ IH]; [reflexivity|].
  simpl. rewrite append_assoc, (match_char_complete a piece) by assumption.
  by rewrite IH.
Qed.

Lemma match_alternatives_sound alts text m :
  Re.match_alternatives alts text = Some m →
  ∃ a, a ∈ alts ∧ Re.match_literal a text = Some m.
Proof.
  induction alts as [|a alts IH]; simpl; [discriminate|].
  destruct (Re.match_literal a text) as [m'|] eqn:Hm.
  - intros [= <-]. exists a. split; [left | assumption].
  - intros (a' & Hin & Ha')%IH. exists a'. split; [by right | assumption].
Qed.

Lemma match_alternatives_none alts text a :
  Re.match_alternatives alts text = None → a ∈ alts →
  Re.match_literal a text = None.
Proof.
  induction alts as [|a' alts IH]; simpl; intros Hnone Hin; [inversion Hin|].
  destruct (Re.match_literal a' text) eqn:Ha'; [discriminate|].
  apply elem_of_cons in Hin as [->|Hin]; [assumption | by apply IH].
Qed.

(** What the search finds is a piece of the text that is one of the
    alternatives up to case. *)
Lemma search_alternatives_sound alts text m :
  Re.search_alternatives alts text = Some m →
  ∃ a, a ∈ alts ∧ ignorecase_eq a m ∧ Re.occurs_in m text.
Proof.
  induction text as [|c text IH].
  - simpl. destruct (Re.match_alternatives alts "") as [m'|] eqn:Hm; [|discriminate].
    intros [= <-]. apply match_alternatives_sound in Hm as (a & Hin & Ha).
    apply match_literal_sound in Ha as (Hieq & post & Hpost).
    exists a. repeat split; [assumption..|]. by exists "", post.
  - simpl. destruct (Re.match_alternatives alts (String c text)) as [m'|] eqn:Hm.
    + intros [= <-]. apply match_alternatives_sound in Hm as (a & Hin & Ha).
      apply match_literal_sound in Ha as (Hieq & post & Hpost).
      exists a. repeat split; [assumption..|]. by exists "", post.
    + intros (a & Hin & Hieq & pre & post & ->)%IH.
      exists a. repeat split; [assumption..|]. by exists (String c pre), post.
Qed.

(** The search answers [None] only when no alternative occurs in the text,
    whatever the letter case. *)
Lemma search_alternatives_none alts text a m :
  Re.search_alternatives alts text = None →
  a ∈ alts → ignorecase_eq a m → ¬ Re.occurs_in m text.
Proof.
  intros Hnone Hin Hieq (pre & post & ->). revert Hnone.
  induction pre as [|c pre IH]; intros Hnone.
  - change ("" +:+ m +:+ post) with (m +:+ post) in Hnone.
    destruct (m +:+ post) as [|c r] eqn:Htext; simpl in Hnone.
    + destruct (Re.match_alternatives alts "") eqn:Hm; [discriminate|].
      pose proof (match_alternatives_none _ _ _ Hm Hin) as Hlit.
      rewrite <- Htext, match_literal_complete in Hlit by assumption.
      discriminate.
    + destruct (Re.match_alternatives alts (String c r)) eqn:Hm; [discriminate|].
      pose proof (match_alternatives_none _ _ _ Hm Hin) as Hlit.
      rewrite <- Htext, match_literal_complete in Hlit by assumption.
      discriminate.
  - rewrite append_cons in Hnone. simpl in Hnone.
    destruct (Re.match_alternatives alts _); [discriminate | auto].
Qed.

(** The leftmost match wins over the order of the alternatives, the match
    keeps the casing of the text, and the long s is an [s]. *)
Example search_ignorecase_runs :
  Re.search_ignorecase "(Relevant|Not Relevant)" "Not Relevant"
  = Ok (Some "Not Relevant")
  ∧ Re.search_ignorecase "(Relevant|Not Relevant)" "It is RELEVANT, I think."
    = Ok (Some "RELEVANT")
  ∧ Re.search_ignorecase "(Relevant|Not Relevant)" "No idea." = Ok None
  ∧ Re.search_ignorecase "(Answer)" ("An" +:+ Re.long_s +:+ "wer: yes")
    = Ok (Some ("An" +:+ Re.long_s +:+ "wer"))
  ∧ Re.search_ignorecase "(*)" "No idea." = Raise re_error
  ∧ Re.search_ignorecase "(a.c)" "abc" = Raise Unmodelled.
Proof. repeat split. Qed.

(** The response types of [POOL] are such literals. *)
Lemma POOL_response_types task_type task_def :
  Prompts.POOL !! task_type = Some task_def →
  Prompts.response_types task_def ≠ []
  ∧ Forall (λ rt, Re.literal rt = true) (Prompts.response_types task_def).
Proof.
  intros H. apply elem_of_list_to_map_2 in H.
  repeat (apply elem_of_cons in H as [[= -> ->]|H];
          [split; [discriminate | repeat constructor]|]).
  inversion H.
Qed.

Lemma init_regex_str pipe rts iterations temperature :
  rts ≠ [] →
  Phi3Evaluator.regex_str (Phi3Evaluator.__init__ pipe rts iterations temperature)
  = Some ("(" +:+ str_join "|" rts +:+ ")").
Proof. intros Hne. destruct rts; [congruence | reflexivity]. Qed.

(** An evaluator over literal response types: its pattern compiles, and the
    method is the search over the response types. *)
Lemma postprocess_of_literals self rts llm_out :
  Phi3Evaluator.regex_str self = Some ("(" +:+ str_join "|" rts +:+ ")") →
  rts ≠ [] → Forall (λ rt, Re.literal rt = true) rts →
  Phi3Evaluator._postprocess_output Re.compile_ignorecase self llm_out
  = Ok match Re.search_alternatives rts llm_out with
       | Some group => group
       | None => "Unparsable"
       end.
Proof.
  intros Hre Hne Hlit.
  unfold Phi3Evaluator._postprocess_output, Phi3Evaluator.re_search.
  rewrite Hre, append_cons, <- append_cons, compile_of_literals by assumption.
  cbn. by destruct (Re.search_alternatives rts llm_out).
Qed.

Lemma literals_compile self rts :
  Phi3Evaluator.regex_str self = Some ("(" +:+ str_join "|" rts +:+ ")") →
  rts ≠ [] → Forall (λ rt, Re.literal rt = true) rts →
  Phi3Evaluator.pattern_compiles Re.compile_ignorecase self.
Proof.
  intros Hre Hne Hlit.
  eapply postprocess_compiles.
  apply (postprocess_of_literals self rts ""); assumption.
Qed.

(** C2. The value the method returns for a match is the matched text as it
    stands in the output, not the response type it was matched with: with
    the response types of the notebook the output "relevant" is mapped to
    "relevant", which is neither a response type nor the sentinel; and in
    the vote such a value counts as a label of its own, so that of the
    three generations below, two of which say relevant, each has one vote
    and the share is 0.33. *)
Theorem postprocess_not_in_label_set :
  let response_types := ["Relevant"; "Not Relevant"] in
  Phi3Evaluator._postprocess_output Re.compile_ignorecase
    (evaluator_of response_types []) "relevant" = Ok "relevant"
  ∧ ("relevant" ∉ response_types)
  ∧ "relevant" ≠ "Unparsable"
  ∧ Phi3Evaluator.__call__ Re.compile_ignorecase
      (evaluator_of response_types ["Relevant"; "Not Relevant"; "relevant"])
      (["a prompt"], None) 4 2
    = ([(["Relevant"; "Not Relevant"; "relevant"], "Relevant", 0.33%float)],
       None).
Proof.
  split; [reflexivity|]. split; [|split; [discriminate | reflexivity]].
  intros H. repeat (apply elem_of_cons in H as [H|H]; [discriminate H|]).
  inversion H.
Qed.

(** ** Formatting the prompts *)

Lemma plain_text_cons c s :
  plain_text (String c s) = true →
  c ≠ "{"%char ∧ c ≠ "}"%char ∧ plain_text s = true.
Proof.
  unfold plain_text. simpl. intros [[H1 H2]%andb_prop H3]%andb_prop.
  apply negb_true_iff in H1, H2.
  repeat split; [by intros ->..|assumption].
Qed.

Lemma plain_text_brace_free s : plain_text s = true → brace_free s.
Proof.
  unfold brace_free. induction s as [|c s IH]; [constructor|].
  intros (H1 & H2 & H3)%plain_text_cons. constructor; auto.
Qed.

(** [str.format] copies text without braces. *)
Lemma format_text (kwargs : gmap string string) s rest :
  plain_text s = true →
  format_from kwargs None (s +:+ rest)
  = String.append s <$> format_from kwargs None rest.
Proof.
  induction s as [|c s IH]; intros Hs.
  - change ("" +:+ rest) with rest. by destruct (format_from kwargs None rest).
  - apply plain_text_cons in Hs as (H1 & H2 & Hs).
    rewrite append_cons. simpl.
    destruct (Ascii.eqb_spec c "{"); [contradiction|].
    destruct (Ascii.eqb_spec c "}"); [contradiction|].
    rewrite (IH Hs). by destruct (format_from kwargs None rest).
Qed.

(** Inside a replacement field the name is read up to the closing brace and
    looked up. *)
Lemma format_name (kwargs : gmap string string) name key rest :
  forallb name_char (list_ascii_of_string key) = true →
  format_from kwargs (Some name) (key +:+ String "}" rest)
  = v ← lookup_field kwargs (name +:+ key);
    String.append v <$> format_from kwargs None rest.
Proof.
  revert name. induction key as [|c key IH]; intros name Hkey.
  - change ("" +:+ String "}" rest) with (String "}" rest).
    rewrite append_empty_r. reflexivity.
  - simpl in Hkey. apply andb_prop in Hkey as [[Hc1 Hc2]%andb_prop Hkey].
    apply negb_true_iff in Hc1, Hc2.
    rewrite append_cons. simpl. rewrite Hc1, Hc2, (IH _ Hkey).
    by rewrite append_assoc.
Qed.

Lemma format_field (kwargs : gmap string string) key value rest :
  plain_name key = true → kwargs !! key = Some value →
  format_from kwargs None (("{" +:+ key +:+ "}") +:+ rest)
  = String.append value <$> format_from kwargs None rest.
Proof.
  intros [Hdig Hkey]%andb_prop Hvalue. apply negb_true_iff in Hdig.
  destruct key as [|c key]; [discriminate Hdig|].
  pose proof Hkey as Hc. simpl in Hc.
  apply andb_prop in Hc as [[Hc _]%andb_prop _]. apply negb_true_iff in Hc.
  assert (Hbrace : Ascii.eqb c "{" = false).
  { destruct (Ascii.eqb_spec c "{") as [->|]; [discriminate Hc | reflexivity]. }
  assert (Hshape : ("{" +:+ String c key +:+ "}") +:+ rest
                   = String "{" (String c (key +:+ String "}" rest)))
    by (rewrite !append_assoc; reflexivity).
  rewrite Hshape.
  change (format_from kwargs None (String "{" (String c (key +:+ String "}" rest))))
    with (if Ascii.eqb c "{"
          then String "{" <$> format_from kwargs None (key +:+ String "}" rest)
          else format_from kwargs (Some "") (String c (key +:+ String "}" rest))).
  rewrite Hbrace, <- append_cons, (format_name kwargs "" (String c key)) by exact Hkey.
  change ("" +:+ String c key) with (String c key).
  unfold lookup_field. rewrite Hdig, Hvalue. reflexivity.
Qed.

Lemma plain_name_well_formed known key :
  plain_name key = true → key ∈ known → well_formed known (Field key).
Proof.
  intros [Hdig Hkey]%andb_prop Hin. apply negb_true_iff in Hdig.
  split; [assumption|]. split; [by intros ->|].
  unfold brace_free. clear Hdig Hin.
  induction key as [|c key IH]; [constructor|].
  simpl in Hkey. apply andb_prop in Hkey as [[Hc1 Hc2]%andb_prop Hkey].
  apply negb_true_iff in Hc1, Hc2. constructor; [|auto].
  split; intros ->; discriminate.
Qed.

(** On pieces that pass the check, [str.format] called with the values of
    the fields gives the pieces put together. *)
Lemma format_pieces (kwargs line : gmap string string) known pieces :
  pieces_ok known pieces = true →
  (∀ key, key ∈ known → is_Some (line !! key) ∧ kwargs !! key = line !! key) →
  Forall (well_formed known) pieces
  ∧ ∃ prompt, render line pieces = Some prompt
              ∧ str_format (template_of pieces) kwargs = Ok prompt.
Proof.
  intros Hok Hkw. unfold str_format.
  induction pieces as [|p pieces IH]; [split; [constructor | by exists ""]|].
  simpl in Hok. apply andb_prop in Hok as [Hp Hok].
  destruct (IH Hok) as (Hwf & prompt & Hrender & Hformat).
  destruct p as [s|key]; cbn [template_of foldr piece_source render piece_value].
  - split; [constructor; [by apply plain_text_brace_free | assumption]|].
    exists (s +:+ prompt). rewrite Hrender. split; [reflexivity|].
    fold (template_of pieces). by rewrite format_text, Hformat.
  - apply andb_prop in Hp as [Hname Hin%bool_decide_eq_true].
    destruct (Hkw key Hin) as [[value Hvalue] Heq].
    split; [constructor; [by apply plain_name_well_formed | assumption]|].
    exists (value +:+ prompt). rewrite Hvalue, Hrender. split; [reflexivity|].
    fold (template_of pieces).
    rewrite (format_field kwargs key value) by (assumption || congruence).
    by rewrite Hformat.
Qed.

Lemma dict_of_keys_ok (line : gmap string string) keys (acc : gmap string string) :
  Forall (λ key, is_Some (line !! key)) keys →
  ∃ kwargs : gmap string string,
    dict_of_keys line keys acc = Ok kwargs
    ∧ ∀ key, kwargs !! key
             = if decide (key ∈ keys) then line !! key else acc !! key.
Proof.
  intros Hall. revert acc. induction Hall as [|k ks [v Hv] _ IH]; intros acc.
  - exists acc. split; [reflexivity|]. intros key.
    destruct (decide (key ∈ [])) as [H|_]; [inversion H | reflexivity].
  - simpl. rewrite Hv. destruct (IH (<[k:=v]> acc)) as (kw & -> & Hkw).
    exists kw. split; [reflexivity|]. intros key. rewrite Hkw.
    destruct (decide (key ∈ ks)) as [Hin|Hnin].
    + destruct (decide (key ∈ k :: ks)) as [_|Hn]; [reflexivity|].
      exfalso. apply Hn. by right.
    + destruct (decide (key = k)) as [->|Hne].
      * rewrite lookup_insert_eq.
        destruct (decide (k ∈ k :: ks)) as [_|Hn]; [by rewrite Hv|].
        exfalso. apply Hn. left.
      * rewrite lookup_insert_ne by congruence.
        destruct (decide (key ∈ k :: ks)) as [Hin|_]; [|reflexivity].
        apply elem_of_cons in Hin as [?|?]; contradiction.
Qed.

Lemma all_in_spec (line : gmap string string) keys :
  all_in line keys = true ↔ Forall (λ key, is_Some (line !! key)) keys.
Proof.
  unfold all_in. induction keys as [|k ks IH]; simpl.
  - split; [constructor | reflexivity].
  - rewrite andb_true_iff, bool_decide_eq_true, IH, Forall_cons. reflexivity.
Qed.

Lemma prompt_of_valid task_def line :
  template_checked task_def →
  has_all_keys task_def line →
  ∃ prompt, Prompts.prompt_of task_def line = Ok prompt
            ∧ formatted_prompt task_def line prompt.
Proof.
  intros (pieces & Htemplate & Hok) Hkeys. unfold Prompts.prompt_of.
  pose proof Hkeys as Hall. apply all_in_spec in Hall. rewrite Hall.
  apply Forall_app in Hkeys as [Hinputs _].
  destruct (dict_of_keys_ok line _ ∅ Hinputs) as (kw & -> & Hkw).
  destruct (format_pieces kw line (Prompts.prompt_inputs task_def) pieces Hok)
    as (Hwf & prompt & Hrender & Hformat).
  { intros key Hkey. rewrite Forall_forall in Hinputs.
    split; [by apply Hinputs|]. rewrite Hkw.
    destruct (decide (key ∈ Prompts.prompt_inputs task_def)); [reflexivity|].
    contradiction. }
  exists prompt. cbn. rewrite Htemplate.
  split; [assumption|]. by exists pieces.
Qed.

Lemma prompt_of_invalid task_def line :
  ¬ has_all_keys task_def line →
  Prompts.prompt_of task_def line = Raise AssertionError.
Proof.
  intros Hkeys. unfold Prompts.prompt_of.
  destruct (all_in line _) eqn:Hall; [|reflexivity].
  apply all_in_spec in Hall. contradiction.
Qed.

(** Every template of [POOL] has its task's prompt inputs as its only
    replacement fields. *)
Lemma POOL_templates task_type task_def :
  Prompts.POOL !! task_type = Some task_def → template_checked task_def.
Proof.
  intros H. apply elem_of_list_to_map_2 in H.
  repeat (apply elem_of_cons in H as [[= -> ->]|H];
          [match goal with
           | |- template_checked ?t =>
               exists (pieces_of None (Prompts.prompt_template t))
           end; split; vm_compute; reflexivity|]).
  inversion H.
Qed.

Lemma gen_for_raises {A B} (body : A → outcome B) pre bad post e :
  (∀ x, x ∈ pre → ∃ y, body x = Ok y) → body bad = Raise e →
  ∃ ys, gen_for body (pre ++ bad :: post) = (ys, Some e)
        ∧ Forall2 (λ x y, body x = Ok y) pre ys.
Proof.
  intros Hok Hbad. induction pre as [|x pre IH]; simpl.
  - rewrite Hbad. exists []. split; [reflexivity | constructor].
  - destruct (Hok x) as [y Hy]; [left|]. rewrite Hy.
    destruct IH as (ys & -> & Hall); [intros; apply Hok; by right|].
    exists (y :: ys). split; [reflexivity | by constructor].
Qed.

Lemma Forall2_prompts task_def (lines : list (gmap string string)) prompts :
  template_checked task_def →
  Forall (has_all_keys task_def) lines →
  Forall2 (λ line prompt, Prompts.prompt_of task_def line = Ok prompt)
    lines prompts →
  Forall2 (formatted_prompt task_def) lines prompts.
Proof.
  intros Hfields Hvalid Hall. induction Hall as [|line p ls ps Hp _ IH].
  - constructor.
  - apply Forall_cons in Hvalid as [Hline Hvalid]. constructor; [|auto].
    destruct (prompt_of_valid _ _ Hfields Hline) as (p' & Hp' & Hfmt).
    congruence.
Qed.

Lemma generate_prompts_run task_type task_def (data : list (gmap string string)) :
  Prompts.POOL !! task_type = Some task_def →
  Forall (has_all_keys task_def) data →
  ∃ prompts,
    Prompts.generate_prompts data task_type = (prompts, None)
    ∧ Forall2 (formatted_prompt task_def) data prompts.
Proof.
  intros Hpool Hvalid. pose proof (POOL_templates _ _ Hpool) as Hfields.
  unfold Prompts.generate_prompts. rewrite Hpool.
  destruct (gen_for_total (Prompts.prompt_of task_def) data)
    as (prompts & Hrun & Hall).
  { intros line Hline. rewrite Forall_forall in Hvalid.
    destruct (prompt_of_valid _ _ Hfields (Hvalid _ Hline)) as (p & Hp & _).
    eauto. }
  exists prompts. split; [assumption|]. by apply Forall2_prompts.
Qed.

(** C5 (amended). For every task type of [POOL]: where every record has the
    keys of the task's prompt inputs and metadata, [generate_prompts] yields
    one prompt per record, in record order, each the task's template with
    its fields replaced by that record's prompt inputs; and when it reaches
    a record that lacks one of those keys it raises AssertionError, having
    yielded the prompts of the records before it and nothing for that record
    or for any record after it. *)
Theorem generate_prompts_checked task_type task_def
    (data : list (gmap string string)) :
  Prompts.POOL !! task_type = Some task_def →
  (Forall (has_all_keys task_def) data →
   ∃ prompts,
     Prompts.generate_prompts data task_type = (prompts, None)
     ∧ Forall2 (formatted_prompt task_def) data prompts)
  ∧ (∀ pre bad post,
       data = pre ++ bad :: post →
       Forall (has_all_keys task_def) pre →
       ¬ has_all_keys task_def bad →
       ∃ prompts,
         Prompts.generate_prompts data task_type = (prompts, Some AssertionError)
         ∧ Forall2 (formatted_prompt task_def) pre prompts).
Proof.
  intros Hpool. pose proof (POOL_templates _ _ Hpool) as Hfields.
  split; [by apply generate_prompts_run|].
  unfold Prompts.generate_prompts. rewrite Hpool.
  - intros pre bad post -> Hvalid Hbad.
    destruct (gen_for_raises (Prompts.prompt_of task_def) pre bad post
                AssertionError) as (prompts & Hrun & Hall).
    { intros line Hline. rewrite Forall_forall in Hvalid.
      destruct (prompt_of_valid _ _ Hfields (Hvalid _ Hline)) as (p & Hp & _).
      eauto. }
    { by apply prompt_of_invalid. }
    exists prompts. split; [assumption|]. by apply Forall2_prompts.
Qed.

Lemma generate_prompts_checked_witness :
  (∃ prompts,
     Prompts.generate_prompts [sample_record; sample_record] "qa_pointwise"
     = (prompts, None)
     ∧ Forall2 (formatted_prompt Prompts.qa_pointwise)
         [sample_record; sample_record] prompts)
  ∧ (∃ prompts,
       Prompts.generate_prompts
         [sample_record; record_without_qid; sample_record] "qa_pointwise"
       = (prompts, Some AssertionError)
       ∧ Forall2 (formatted_prompt Prompts.qa_pointwise)
           [sample_record] prompts).
Proof.
  assert (Hsample : has_all_keys Prompts.qa_pointwise sample_record)
    by (apply all_in_spec; reflexivity).
  split.
  - apply (generate_prompts_checked "qa_pointwise" Prompts.qa_pointwise
             [sample_record; sample_record]); [reflexivity|].
    repeat (apply Forall_cons; split; [exact Hsample|]). by apply Forall_nil.
  - apply (generate_prompts_checked "qa_pointwise" Prompts.qa_pointwise
             [sample_record; record_without_qid; sample_record] eq_refl)
      with (pre := [sample_record]) (bad := record_without_qid)
           (post := [sample_record]).
    + reflexivity.
    + repeat (apply Forall_cons; split; [exact Hsample|]). by apply Forall_nil.
    + intros H%all_in_spec. discriminate H.
Defined.

(** The counterexample to C5 as stated: a record with all the keys that
    comes after a record without its [qid] gets no prompt. *)
Lemma generate_prompts_stops_at_first_invalid :
  has_all_keys Prompts.qa_pointwise sample_record
  ∧ Prompts.generate_prompts [record_without_qid; sample_record] "qa_pointwise"
    = ([], Some AssertionError).
Proof. split; [apply all_in_spec|]; reflexivity. Qed.

(** *** The formatted prompt is determined by the template and the record *)

Lemma brace_free_cons c s :
  brace_free (String c s) → c ≠ "{"%char ∧ c ≠ "}"%char ∧ brace_free s.
Proof.
  unfold brace_free. simpl. intros [[H1 H2] H3]%Forall_cons. auto.
Qed.

Lemma pieces_of_text s rest :
  brace_free s →
  pieces_of None (s +:+ rest)
  = ((λ c, Text (String c "")) <$> list_ascii_of_string s) ++ pieces_of None rest.
Proof.
  induction s as [|c s IH]; intros Hs; [reflexivity|].
  apply brace_free_cons in Hs as (H1 & H2 & Hs).
  rewrite append_cons. simpl.
  destruct (Ascii.eqb_spec c "{"); [contradiction|].
  by rewrite (IH Hs).
Qed.

Lemma pieces_of_name name key rest :
  brace_free key →
  pieces_of (Some name) (key +:+ String "}" rest)
  = Field (name +:+ key) :: pieces_of None rest.
Proof.
  revert name. induction key as [|c key IH]; intros name Hkey.
  - change ("" +:+ String "}" rest) with (String "}" rest).
    by rewrite append_empty_r.
  - apply brace_free_cons in Hkey as (H1 & H2 & Hkey).
    rewrite append_cons. simpl.
    destruct (Ascii.eqb_spec c "}"); [contradiction|].
    by rewrite (IH _ Hkey), append_assoc.
Qed.

Lemma render_text line s pieces :
  render line (((λ c, Text (String c "")) <$> list_ascii_of_string s) ++ pieces)
  = String.append s <$> render line pieces.
Proof.
  induction s as [|c s IH].
  - simpl. by destruct (render line pieces).
  - change (list_ascii_of_string (String c s)) with (c :: list_ascii_of_string s).
    rewrite fmap_cons, <- app_comm_cons. cbn [render piece_value].
    rewrite IH. by destruct (render line pieces).
Qed.

Lemma render_canonical line known pieces :
  Forall (well_formed known) pieces →
  render line (pieces_of None (template_of pieces)) = render line pieces.
Proof.
  induction 1 as [|p pieces Hp _ IH]; [reflexivity|].
  destruct p as [s|key]; cbn [template_of foldr piece_source];
    fold (template_of pieces).
  - rewrite pieces_of_text, render_text, IH by exact Hp. simpl.
    by destruct (render line pieces).
  - destruct Hp as (_ & _ & Hkey).
    assert (Hshape : ("{" +:+ key +:+ "}") +:+ template_of pieces
                     = String "{" (key +:+ String "}" (template_of pieces)))
      by (rewrite !append_assoc; reflexivity).
    rewrite Hshape.
    change (pieces_of None (String "{" (key +:+ String "}" (template_of pieces))))
      with (pieces_of (Some "") (key +:+ String "}" (template_of pieces))).
    rewrite pieces_of_name by assumption.
    change ("" +:+ key) with key. simpl. by rewrite IH.
Qed.

(** A template and a record have at most one formatted prompt. *)
Lemma formatted_prompt_unique task_def line prompt1 prompt2 :
  formatted_prompt task_def line prompt1 →
  formatted_prompt task_def line prompt2 →
  prompt1 = prompt2.
Proof.
  intros (pieces1 & Ht1 & Hwf1 & Hr1) (pieces2 & Ht2 & Hwf2 & Hr2).
  rewrite <- (render_canonical _ _ _ Hwf1), <- Ht1 in Hr1.
  rewrite <- (render_canonical _ _ _ Hwf2), <- Ht2 in Hr2.
  congruence.
Qed.

(** The prompt of a record in the shape of [SAMPLE_DATA], written out. *)
Example generate_prompts_sample :
  Prompts.generate_prompts [sample_record] "qa_pointwise"
  = ([
     "You are an expert in information retrieval and your task is to estimate the relevance of a retrieved document to a" +:+
     " query." +:+ Prompts.nl +:+
     "More specifically, you will be provided with two pieces of information:" +:+ Prompts.nl +:+
     "- Query, which is the question we want to answer" +:+ Prompts.nl +:+
     "- Retrieved Document, which is the document we want to evaluate." +:+ Prompts.nl +:+ Prompts.nl +:+
     "Your task is to predict " +:+ Prompts.dq +:+ "Relevant" +:+ Prompts.dq +:+ " if the Retrieved Document contains the information required to provide an " +:+
     "answer to the Query, otherwise you should print " +:+ Prompts.dq +:+ "Not Relevant" +:+ Prompts.dq +:+ " " +:+ Prompts.nl +:+
     "#####" +:+ Prompts.nl +:+
     "Here are your inputs:" +:+ Prompts.nl +:+
     "Query: define preventive" +:+ Prompts.nl +:+
     "Retrieved Document: The Prevention Institute defines prevention as a systematic process." +:+ Prompts.nl +:+
     "#####" +:+ Prompts.nl +:+ Prompts.nl +:+
     "Take a step back and reflect carefully on how best to solve your task" +:+ Prompts.nl +:+
     "You should provide your answer in the form of a boolean value: " +:+ Prompts.dq +:+ "Relevant" +:+ Prompts.dq +:+ " or " +:+ Prompts.dq +:+ "Not Relevant" +:+ Prompts.dq +:+ Prompts.nl
     ], None).
Proof. vm_compute. reflexivity. Qed.

(** ** One judgment per prompt, paired with its record *)

Lemma generate_data_valid task_type task_def (data : list (gmap string string)) :
  Prompts.POOL !! task_type = Some task_def →
  Forall (has_all_keys task_def) data →
  Prompts.generate_data data task_type = (data, None).
Proof.
  intros Hpool Hvalid. unfold Prompts.generate_data. rewrite Hpool.
  induction Hvalid as [|line data Hline _ IH]; [reflexivity|].
  simpl. unfold Prompts.checked at 1.
  apply all_in_spec in Hline. rewrite Hline, IH. reflexivity.
Qed.

(** Two runs of the same length that end normally are zipped in full. *)
Lemma zip_runs_same_length {A B} (la : list A) (lb : list B) :
  length la = length lb →
  ∃ ps, zip_runs la None lb None = (ps, None) ∧ ps.*1 = la ∧ ps.*2 = lb.
Proof.
  revert lb. induction la as [|a la IH]; intros [|b lb] Hlen; try discriminate.
  - by exists [].
  - destruct (IH lb) as (ps & Hps & H1 & H2); [by injection Hlen|].
    simpl. rewrite Hps. exists ((a, b) :: ps).
    split; [reflexivity|]. rewrite !fmap_cons, H1, H2. by split.
Qed.

Lemma pipeline_outputs_length self prompts max_output_tokens batch_size :
  answers_each_input self →
  length (Phi3Evaluator.pipeline_outputs self prompts max_output_tokens batch_size)
  = length prompts.
Proof.
  intros Hpipe. unfold Phi3Evaluator.pipeline_outputs.
  rewrite Hpipe. unfold Phi3Evaluator.inputs_for_pipeline. apply length_fmap.
Qed.

Section Pairing.

Variable re_compile : string → outcome (string → option string).

Abbreviation judge := (Phi3Evaluator.judge re_compile).
Abbreviation __call__ := (Phi3Evaluator.__call__ re_compile).
Abbreviation pattern_compiles := (Phi3Evaluator.pattern_compiles re_compile).
Abbreviation pipeline_outputs := Phi3Evaluator.pipeline_outputs.

Lemma call_per_prompt self prompts max_output_tokens batch_size :
  pattern_compiles self → answers_each_input self →
  ∃ ys,
    __call__ self (prompts, None) max_output_tokens batch_size = (ys, None)
    ∧ length ys = length prompts
    ∧ Forall2 (λ output y, judge self output = Ok y)
        (pipeline_outputs self prompts max_output_tokens batch_size) ys.
Proof.
  intros Hc Hpipe.
  destruct (call_yields re_compile self prompts max_output_tokens batch_size Hc)
    as (ys & Hrun & Hall).
  exists ys. split; [assumption|]. split; [|assumption].
  rewrite <- (Forall2_length _ _ _ Hall). by apply pipeline_outputs_length.
Qed.

Lemma judged_rows self task_type task_def (data : list (gmap string string))
    max_output_tokens batch_size :
  pattern_compiles self → answers_each_input self →
  Prompts.POOL !! task_type = Some task_def →
  Forall (has_all_keys task_def) data →
  ∃ prompts rows,
    Forall2 (formatted_prompt task_def) data prompts
    ∧ Prompts.judged re_compile self data task_type max_output_tokens batch_size
      = (rows, None)
    ∧ rows.*2 = data
    ∧ Forall2 (λ output y, judge self output = Ok y)
        (pipeline_outputs self prompts max_output_tokens batch_size) rows.*1.
Proof.
  intros Hc Hpipe Hpool Hvalid.
  destruct (generate_prompts_run task_type task_def data Hpool Hvalid)
    as (prompts & Hprompts & Hfmt).
  destruct (call_per_prompt self prompts max_output_tokens batch_size Hc Hpipe)
    as (ys & Hys & Hlen & Hjudge).
  destruct (zip_runs_same_length ys data) as (rows & Hrows & H1 & H2).
  { rewrite Hlen. symmetry. by eapply Forall2_length. }
  exists prompts, rows. split; [assumption|].
  unfold Prompts.judged, zip.
  rewrite Hprompts, Hys, (generate_data_valid _ _ _ Hpool Hvalid). simpl.
  split; [assumption|]. split; [assumption|]. by rewrite H1.
Qed.

(** A record without its keys ends the run before anything is paired. *)
Lemma judged_invalid_record self task_type task_def pre bad post
    max_output_tokens batch_size :
  Prompts.POOL !! task_type = Some task_def →
  Forall (has_all_keys task_def) pre → ¬ has_all_keys task_def bad →
  Prompts.judged re_compile self (pre ++ bad :: post) task_type
    max_output_tokens batch_size
  = ([], Some AssertionError).
Proof.
  intros Hpool Hvalid Hbad. pose proof (POOL_templates _ _ Hpool) as Hfields.
  unfold Prompts.judged, zip, Prompts.generate_prompts. rewrite Hpool.
  destruct (gen_for_raises (Prompts.prompt_of task_def) pre bad post
              AssertionError) as (prompts & -> & _).
  - intros line Hline. rewrite Forall_forall in Hvalid.
    destruct (prompt_of_valid _ _ Hfields (Hvalid _ Hline)) as (p & Hp & _).
    eauto.
  - by apply prompt_of_invalid.
  - reflexivity.
Qed.

(** The rows of [outputs]: one per record, in order, holding the record's
    metadata and prompt inputs and the judgment made for its prompt. *)
Lemma outputs_rows self task_type task_def (data : list (gmap string string))
    batch_size :
  pattern_compiles self → answers_each_input self →
  Prompts.POOL !! task_type = Some task_def →
  Forall (has_all_keys task_def) data →
  ∃ prompts rows,
    Forall2 (formatted_prompt task_def) data prompts
    ∧ Prompts.outputs re_compile self data task_type batch_size = (rows, None)
    ∧ Forall2
        (λ line row,
           ∀ key, Prompts.fields row !! key
                  = if decide (key ∈ Prompts.metadata task_def
                                     ++ Prompts.prompt_inputs task_def)
                    then line !! key else None)
        data rows
    ∧ Forall2
        (λ output row,
           judge self output
           = Ok (Prompts.LLM_raw_response row, Prompts.LLM_mapped_response row,
                 Prompts.LLM_agreement row))
        (pipeline_outputs self prompts (Prompts.max_output_tokens task_def)
           batch_size)
        rows.
Proof.
  intros Hc Hpipe Hpool Hvalid.
  destruct (judged_rows self task_type task_def data
              (Prompts.max_output_tokens task_def) batch_size Hc Hpipe Hpool Hvalid)
    as (prompts & pairs & Hfmt & Hpairs & Hdata & Hjudge).
  cut (∃ rows,
         Prompts.outputs re_compile self data task_type batch_size = (rows, None)
         ∧ Forall2
             (λ line row,
                ∀ key, Prompts.fields row !! key
                       = if decide (key ∈ Prompts.metadata task_def
                                          ++ Prompts.prompt_inputs task_def)
                         then line !! key else None)
             data rows
         ∧ Forall2
             (λ output row,
                judge self output
                = Ok (Prompts.LLM_raw_response row,
                      Prompts.LLM_mapped_response row,
                      Prompts.LLM_agreement row))
             (pipeline_outputs self prompts (Prompts.max_output_tokens task_def)
                batch_size)
             rows).
  { intros (rows & H1 & H2 & H3). by exists prompts, rows. }
  unfold Prompts.outputs. rewrite Hpool, Hpairs. simpl.
  set (outs := pipeline_outputs self prompts (Prompts.max_output_tokens task_def)
                 batch_size) in *.
  clearbody outs. clear Hpairs Hfmt. subst data.
  revert outs Hjudge. induction pairs as [|[[[raw lbl] agr] line] pairs IH];
    intros outs Hjudge.
  - apply Forall2_nil_inv_r in Hjudge as ->.
    exists []. split; [reflexivity|]. split; constructor.
  - rewrite fmap_cons in Hjudge. apply Forall2_cons_inv_r in Hjudge
      as (output & outs' & Hj & Hrest & ->).
    rewrite fmap_cons in Hvalid. apply Forall_cons in Hvalid as [Hline Hvalid].
    destruct (IH Hvalid outs' Hrest) as (rows & Hrows & Hfields & Hjs).
    simpl in Hline, Hj |- *.
    destruct (dict_of_keys_ok line
                (Prompts.metadata task_def ++ Prompts.prompt_inputs task_def) ∅)
      as (json & -> & Hjson).
    { apply Forall_app in Hline as [Hin Hmeta]. apply Forall_app. by split. }
    cbn. destruct (gen_for _ pairs) as [rows' raised] eqn:Hgen.
    injection Hrows as -> Hraised.
    assert (raised = None) as -> by (destruct raised; [discriminate | reflexivity]).
    eexists. split; [reflexivity|].
    split; (constructor; [|assumption]); simpl; [|assumption].
    intros key. rewrite Hjson. by rewrite lookup_empty.
Qed.

(** C8 (amended). For an evaluator whose pattern compiles and a pipeline that
    returns one output per input, [__call__] yields exactly one triple per
    prompt, in the order of the prompts, each made from the output at the
    place of that prompt; so zipping its results with [generate_data] over
    the same records pairs each record with the judgment of the output at
    the place of the prompt formatted from that record. *)
Theorem call_one_judgment_per_prompt self max_output_tokens batch_size :
  pattern_compiles self → answers_each_input self →
  (∀ prompts,
     ∃ ys,
       __call__ self (prompts, None) max_output_tokens batch_size = (ys, None)
       ∧ length ys = length prompts
       ∧ Forall2 (λ output y, judge self output = Ok y)
           (pipeline_outputs self prompts max_output_tokens batch_size) ys)
  ∧ (∀ task_type task_def (data : list (gmap string string)),
       Prompts.POOL !! task_type = Some task_def →
       Forall (has_all_keys task_def) data →
       ∃ prompts rows,
         Forall2 (formatted_prompt task_def) data prompts
         ∧ Prompts.judged re_compile self data task_type max_output_tokens
             batch_size = (rows, None)
         ∧ rows.*2 = data
         ∧ Forall2 (λ output y, judge self output = Ok y)
             (pipeline_outputs self prompts max_output_tokens batch_size)
             rows.*1).
Proof.
  intros Hc Hpipe. split.
  - intros prompts. by apply call_per_prompt.
  - intros task_type task_def data Hpool Hvalid. by apply judged_rows.
Qed.

End Pairing.

Lemma scripted_answers_each_input response_types texts :
  answers_each_input (evaluator_of response_types texts).
Proof. intros inputs args. apply length_fmap. Qed.

Lemma call_one_judgment_per_prompt_witness :
  let texts := ["Relevant"; "not relevant"; "Relevant"] in
  let self := qa_evaluator texts in
  let data := [sample_record; <["qid" := "89786"]> sample_record] in
  (∃ ys,
     Phi3Evaluator.__call__ Re.compile_ignorecase self
       (["first prompt"; "second prompt"], None) 4 2 = (ys, None)
     ∧ length ys = 2
     ∧ Forall2
         (λ output y, Phi3Evaluator.judge Re.compile_ignorecase self output = Ok y)
         [answers texts; answers texts] ys)
  ∧ (∃ prompts rows,
       Forall2 (formatted_prompt Prompts.qa_pointwise) data prompts
       ∧ Prompts.judged Re.compile_ignorecase self data "qa_pointwise" 4 2
         = (rows, None)
       ∧ rows.*2 = data
       ∧ Forall2
           (λ output y,
              Phi3Evaluator.judge Re.compile_ignorecase self output = Ok y)
           (Phi3Evaluator.pipeline_outputs self prompts 4 2) rows.*1).
Proof.
  intros texts self data.
  destruct (call_one_judgment_per_prompt Re.compile_ignorecase self 4 2)
    as [Hcall Hzip].
  - by eexists.
  - apply scripted_answers_each_input.
  - split; [apply (Hcall ["first prompt"; "second prompt"])|].
    apply (Hzip "qa_pointwise" Prompts.qa_pointwise); [reflexivity|].
    repeat (apply Forall_cons; split; [apply all_in_spec; reflexivity|]).
    by apply Forall_nil.
Defined.

(** The counterexample to C8 as stated: response types that do not form a
    regular expression.  The pattern "(+1|-1)" has nothing to repeat at its
    [+], the first generation raises [re.error], and no triple is yielded
    for the prompt. *)
Lemma call_no_judgment_on_bad_pattern :
  let self := evaluator_of ["+1"; "-1"] ["+1"] in
  Phi3Evaluator.regex_str self = Some "(+1|-1)"
  ∧ Phi3Evaluator.pipeline_outputs self ["a prompt"] 4 2 = [answers ["+1"]]
  ∧ Phi3Evaluator.__call__ Re.compile_ignorecase self (["a prompt"], None) 4 2
    = ([], Some re_error).
Proof. repeat split. Qed.

(** The notebook's loop on two records: each row carries the [qid] of the
    record it was judged for. *)
Example outputs_run :
  let run :=
    Prompts.outputs Re.compile_ignorecase
      (qa_evaluator ["Relevant"; "not relevant"; "Relevant"])
      [sample_record; <["qid" := "89786"]> sample_record] "qa_pointwise" 2 in
  run.2 = None
  ∧ (λ row, (Prompts.fields row !! "qid", Prompts.LLM_mapped_response row,
             Prompts.LLM_agreement row)) <$> run.1
    = [(Some "125705", "Relevant", 0.67%float);
       (Some "89786", "Relevant", 0.67%float)].
Proof. vm_compute. split; reflexivity. Qed.

(** * Further properties of the code *)

(** ** Evaluators over literal response types *)

(** [get_llm_evaluator] refuses a task type that is not in [POOL] with a
    ValueError; for a task type of [POOL] it returns an evaluator whose
    pattern compiles and that maps every LLM output to "Unparsable" or to a
    piece of the output that is one of that task's response types up to
    what [re.IGNORECASE] ignores. *)
Theorem get_llm_evaluator_labels pipe task_type iterations temperature :
  (Prompts.POOL !! task_type = None →
   Prompts.get_llm_evaluator pipe task_type iterations temperature
   = Raise ValueError)
  ∧ (∀ task_def,
       Prompts.POOL !! task_type = Some task_def →
       ∃ self,
         Prompts.get_llm_evaluator pipe task_type iterations temperature = Ok self
         ∧ Phi3Evaluator.pattern_compiles Re.compile_ignorecase self
         ∧ ∀ llm_out,
             ∃ result,
               Phi3Evaluator._postprocess_output Re.compile_ignorecase self
                 llm_out = Ok result
               ∧ (result = "Unparsable"
                  ∨ ∃ rt, rt ∈ Prompts.response_types task_def
                          ∧ ignorecase_eq rt result
                          ∧ Re.occurs_in result llm_out)).
Proof.
  unfold Prompts.get_llm_evaluator. split.
  - intros ->. reflexivity.
  - intros task_def Hpool. rewrite Hpool. eexists. split; [reflexivity|].
    destruct (POOL_response_types _ _ Hpool) as [Hne Hlit].
    split.
    { eapply literals_compile; [by apply init_regex_str | assumption..]. }
    intros llm_out. eexists. split.
    { apply (postprocess_of_literals _ (Prompts.response_types task_def));
        [by apply init_regex_str | assumption..]. }
    destruct (Re.search_alternatives _ llm_out) as [m|] eqn:Hm.
    + right. by apply search_alternatives_sound.
    + by left.
Qed.

Lemma get_llm_evaluator_labels_witness :
  Prompts.get_llm_evaluator (scripted []) "qa_listwise" 1 0%float
  = Raise ValueError
  ∧ ∃ self,
      Prompts.get_llm_evaluator (scripted []) "chain_of_thought" 1 0%float
      = Ok self
      ∧ Phi3Evaluator.pattern_compiles Re.compile_ignorecase self
      ∧ ∀ llm_out,
          ∃ result,
            Phi3Evaluator._postprocess_output Re.compile_ignorecase self llm_out
            = Ok result
            ∧ (result = "Unparsable"
               ∨ ∃ rt, rt ∈ Prompts.response_types Prompts.chain_of_thought
                       ∧ ignorecase_eq rt result
                       ∧ Re.occurs_in result llm_out).
Proof.
  split.
  - apply (get_llm_evaluator_labels (scripted []) "qa_listwise" 1 0%float).
    reflexivity.
  - apply (get_llm_evaluator_labels (scripted []) "chain_of_thought" 1 0%float).
    reflexivity.
Defined.

(** With response types that are ASCII literals the sentinel is never the
    result of a missed label: when a response type occurs in the LLM output,
    up to what [re.IGNORECASE] ignores, the result is such a piece of the
    output; when none occurs, the result is "Unparsable". *)
Theorem postprocess_finds_label pipe response_types iterations temperature
    llm_out :
  response_types ≠ [] →
  Forall (λ rt, Re.literal rt = true) response_types →
  let self := Phi3Evaluator.__init__ pipe response_types iterations temperature in
  ∃ result,
    Phi3Evaluator._postprocess_output Re.compile_ignorecase self llm_out
    = Ok result
    ∧ ((∃ rt m, rt ∈ response_types ∧ ignorecase_eq rt m
                ∧ Re.occurs_in m llm_out) →
       ∃ rt, rt ∈ response_types ∧ ignorecase_eq rt result
             ∧ Re.occurs_in result llm_out)
    ∧ ((∀ rt m, rt ∈ response_types → ignorecase_eq rt m →
                ¬ Re.occurs_in m llm_out) →
       result = "Unparsable").
Proof.
  intros Hne Hlit self. eexists. split.
  { apply (postprocess_of_literals _ response_types);
      [by apply init_regex_str | assumption..]. }
  destruct (Re.search_alternatives response_types llm_out) as [g|] eqn:Hg.
  - pose proof (search_alternatives_sound _ _ _ Hg) as (rt & Hin & Hieq & Hocc).
    split; [eauto|]. intros Hnone. exfalso. by eapply Hnone.
  - split; [|reflexivity]. intros (rt & m & Hin & Hieq & Hocc).
    exfalso. by eapply search_alternatives_none.
Qed.

Lemma ignorecase_eq_upper_relevant : ignorecase_eq "Relevant" "RELEVANT".
Proof.
  apply (ic_char "R" "elevant" "R" "ELEVANT"); [constructor|].
  apply (ic_char "e" "levant" "E" "LEVANT");
    [apply (ic_upper "e"); split; apply Nat.leb_le; reflexivity|].
  apply (ic_char "l" "evant" "L" "EVANT");
    [apply (ic_upper "l"); split; apply Nat.leb_le; reflexivity|].
  apply (ic_char "e" "vant" "E" "VANT");
    [apply (ic_upper "e"); split; apply Nat.leb_le; reflexivity|].
  apply (ic_char "v" "ant" "V" "ANT");
    [apply (ic_upper "v"); split; apply Nat.leb_le; reflexivity|].
  apply (ic_char "a" "nt" "A" "NT");
    [apply (ic_upper "a"); split; apply Nat.leb_le; reflexivity|].
  apply (ic_char "n" "t" "N" "T");
    [apply (ic_upper "n"); split; apply Nat.leb_le; reflexivity|].
  apply (ic_char "t" "" "T" "");
    [apply (ic_upper "t"); split; apply Nat.leb_le; reflexivity|].
  constructor.
Qed.

Lemma postprocess_finds_label_witness :
  (∃ result,
     Phi3Evaluator._postprocess_output Re.compile_ignorecase (qa_evaluator [])
       "So: NOT RELEVANT." = Ok result
     ∧ ∃ rt, rt ∈ ["Relevant"; "Not Relevant"] ∧ ignorecase_eq rt result
             ∧ Re.occurs_in result "So: NOT RELEVANT.")
  ∧ (∃ result,
       Phi3Evaluator._postprocess_output Re.compile_ignorecase (qa_evaluator [])
         "No idea." = Ok result
       ∧ result = "Unparsable").
Proof.
  split.
  - destruct (postprocess_finds_label (scripted []) ["Relevant"; "Not Relevant"]
                3 0.5%float "So: NOT RELEVANT.")
      as (result & Hresult & Hfound & _).
    + discriminate.
    + repeat constructor.
    + exists result. split; [exact Hresult|]. apply Hfound.
      exists "Relevant", "RELEVANT". split; [left|].
      split; [exact ignorecase_eq_upper_relevant|]. by exists "So: NOT ", ".".
  - destruct (postprocess_finds_label (scripted []) ["Relevant"; "Not Relevant"]
                3 0.5%float "No idea.")
      as (result & Hresult & _ & Hnone).
    + discriminate.
    + repeat constructor.
    + exists result. split; [exact Hresult|]. apply Hnone.
      intros rt m Hin Hieq.
      by apply (search_alternatives_none ["Relevant"; "Not Relevant"] _ rt).
Defined.

(** ** What [__call__] yields, element by element *)

Section Elements.

Variable re_compile : string → outcome (string → option string).

(** With a pattern that compiles, the mapped label is "Unparsable" exactly
    for the batch elements without a parsed output: a vote never elects the
    sentinel, and the raw outputs are yielded untouched either way. *)
Theorem call_label_sentinel self prompts max_output_tokens batch_size i output :
  Phi3Evaluator.pattern_compiles re_compile self →
  Phi3Evaluator.pipeline_outputs self prompts max_output_tokens batch_size !! i
  = Some output →
  ∃ parsed lbl agreement,
    Phi3Evaluator.parsed_outputs re_compile self output = Ok parsed
    ∧ (Phi3Evaluator.__call__ re_compile self (prompts, None) max_output_tokens
         batch_size).1 !! i
      = Some (Phi3Evaluator.llm_outputs output, lbl, agreement)
    ∧ (lbl = "Unparsable" ↔ ∀ o, o ∈ parsed → o = "Unparsable").
Proof.
  intros Hc Hi.
  destruct (parsed_total re_compile self output Hc) as [parsed Hparsed].
  pose proof (clean_of_parsed _ _ _ _ Hparsed) as Hclean.
  destruct (call_yields_at re_compile _ _ _ _ _ _ Hc Hi) as (y & Hy & Hcall).
  exists parsed.
  destruct (filter (λ o : string, o ≠ "Unparsable") parsed) as [|c cs] eqn:Hf.
  - rewrite judge_unparsable in Hy by assumption. injection Hy as <-.
    exists "Unparsable", (-1)%float. split; [assumption|]. split; [assumption|].
    split; [|reflexivity]. intros _ o Ho.
    destruct (decide (o = "Unparsable")) as [|Hno]; [assumption|]. exfalso.
    eapply not_elem_of_nil. rewrite <- Hf.
    apply list_elem_of_filter. split; eassumption.
  - destruct (judge_voted re_compile self output _ Hclean)
      as (lbl & ratio & Hj & _ & Hin & _); [discriminate|].
    rewrite Hj in Hy. injection Hy as <-.
    exists lbl, (round ratio 2). split; [assumption|]. split; [assumption|].
    rewrite <- Hf in Hin. apply list_elem_of_filter in Hin as [Hlbl Hin].
    split; [congruence|]. intros Hall. exfalso. apply Hlbl. by apply Hall.
Qed.

(** With one generation per prompt, as greedy decoding returns it (a dict
    or a list of one dict), the element yields the post-processed text with
    agreement 1.0, or the sentinel with -1.0 when the text does not parse. *)
Theorem call_single_generation self prompts max_output_tokens batch_size i
    output text parsed :
  Phi3Evaluator.pipeline_outputs self prompts max_output_tokens batch_size !! i
  = Some output →
  Phi3Evaluator.llm_outputs output = [text] →
  Phi3Evaluator._postprocess_output re_compile self text = Ok parsed →
  (Phi3Evaluator.__call__ re_compile self (prompts, None) max_output_tokens
     batch_size).1 !! i
  = Some ([text], parsed,
          if decide (parsed = "Unparsable") then (-1)%float else 1%float).
Proof.
  intros Hi Htext Hparsed.
  destruct (call_yields_at re_compile self prompts max_output_tokens batch_size
              i output) as (y & Hy & Hcall);
    [by eapply postprocess_compiles | assumption |].
  assert (Hj : Phi3Evaluator.judge re_compile self output
               = Ok ([text], parsed,
                     if decide (parsed = "Unparsable")
                     then (-1)%float else 1%float)).
  { unfold Phi3Evaluator.judge, Phi3Evaluator.clean_outputs,
      Phi3Evaluator.parsed_outputs.
    rewrite Htext. simpl. rewrite Hparsed. cbn.
    destruct (decide (parsed = "Unparsable")) as [Heq|Hne].
    - destruct (decide (parsed ≠ "Unparsable")); [contradiction|].
      rewrite Heq. reflexivity.
    - destruct (decide (parsed ≠ "Unparsable")); [|contradiction]. reflexivity. }
  rewrite Hj in Hy. injection Hy as <-. exact Hcall.
Qed.

(** With a pattern that does not compile, the call ends with the exception
    of [re] at the first output that has a generation; the outputs before
    it, having none, got the sentinel. *)
Theorem call_raises_on_bad_pattern self pattern e prompts max_output_tokens
    batch_size pre output post :
  Phi3Evaluator.regex_str self = Some pattern → pattern ≠ "" →
  re_compile pattern = Raise e →
  Phi3Evaluator.pipeline_outputs self prompts max_output_tokens batch_size
  = pre ++ output :: post →
  Forall (λ earlier, Phi3Evaluator.llm_outputs earlier = []) pre →
  Phi3Evaluator.llm_outputs output ≠ [] →
  Phi3Evaluator.__call__ re_compile self (prompts, None) max_output_tokens
    batch_size
  = ((λ _, ([], "Unparsable", (-1)%float)) <$> pre, Some e).
Proof.
  intros Hre Hne He Hout Hpre Houtput.
  unfold Phi3Evaluator.__call__. simpl. rewrite Hout. clear Hout.
  assert (Hbad : Phi3Evaluator.judge re_compile self output = Raise e).
  { unfold Phi3Evaluator.judge, Phi3Evaluator.clean_outputs,
      Phi3Evaluator.parsed_outputs.
    destruct (Phi3Evaluator.llm_outputs output) as [|text texts]; [congruence|].
    rewrite (mapM_raises _ _ _ e); [reflexivity|].
    intros llm_out. by eapply postprocess_raises. }
  induction Hpre as [|earlier pre Hearlier _ IH]; simpl.
  - by rewrite Hbad.
  - assert (Phi3Evaluator.judge re_compile self earlier
            = Ok ([], "Unparsable", (-1)%float)) as ->.
    { unfold Phi3Evaluator.judge, Phi3Evaluator.clean_outputs,
        Phi3Evaluator.parsed_outputs. by rewrite Hearlier. }
    by rewrite IH.
Qed.

End Elements.

Lemma call_label_sentinel_witness :
  let texts := ["It is relevant"; "no idea"] in
  ∃ parsed lbl agreement,
    Phi3Evaluator.parsed_outputs Re.compile_ignorecase (qa_evaluator texts)
      (answers texts) = Ok parsed
    ∧ (Phi3Evaluator.__call__ Re.compile_ignorecase (qa_evaluator texts)
         (["a prompt"], None) 4 2).1 !! 0
      = Some (texts, lbl, agreement)
    ∧ (lbl = "Unparsable" ↔ ∀ o, o ∈ parsed → o = "Unparsable").
Proof.
  intros texts.
  apply (call_label_sentinel Re.compile_ignorecase (qa_evaluator texts)
           ["a prompt"] 4 2 0 (answers texts)).
  - by eexists.
  - reflexivity.
Defined.

Lemma call_single_generation_witness :
  let self := Phi3Evaluator.__init__
                (Phi3Evaluator.pipeline_of
                   (λ _ _, Phi3Evaluator.One {| Phi3Evaluator.generated_text :=
                                                  "Not Relevant" |}))
                ["Relevant"; "Not Relevant"] 1 0%float in
  (Phi3Evaluator.__call__ Re.compile_ignorecase self (["a prompt"], None) 4 2).1
    !! 0
  = Some (["Not Relevant"], "Not Relevant", 1%float).
Proof.
  intros self.
  apply (call_single_generation Re.compile_ignorecase self ["a prompt"] 4 2 0
           (Phi3Evaluator.One {| Phi3Evaluator.generated_text := "Not Relevant" |})
           "Not Relevant" "Not Relevant"); reflexivity.
Defined.

Lemma call_raises_on_bad_pattern_witness :
  let empty := Phi3Evaluator.Many [] in
  let self := Phi3Evaluator.__init__
                (λ _ _, [empty; answers ["+1"]; answers ["-1"]])
                ["+1"; "-1"] 3 0.5%float in
  Phi3Evaluator.__call__ Re.compile_ignorecase self
    (["first"; "second"; "third"], None) 4 2
  = ([([], "Unparsable", (-1)%float)], Some re_error).
Proof.
  intros empty self.
  apply (call_raises_on_bad_pattern Re.compile_ignorecase self "(+1|-1)" re_error
           ["first"; "second"; "third"] 4 2 [empty] (answers ["+1"])
           [answers ["-1"]]).
  - reflexivity.
  - discriminate.
  - reflexivity.
  - reflexivity.
  - by repeat constructor.
  - discriminate.
Defined.



(** ** The two generators over the records, and the rows of [outputs] *)

Lemma checked_valid task_def line :
  has_all_keys task_def line → Prompts.checked task_def line = Ok line.
Proof.
  intros H. unfold Prompts.checked. apply all_in_spec in H. by rewrite H.
Qed.

Lemma checked_invalid task_def line :
  ¬ has_all_keys task_def line →
  Prompts.checked task_def line = Raise AssertionError.
Proof.
  intros H. unfold Prompts.checked.
  destruct (all_in line _) eqn:Hall; [|reflexivity].
  apply all_in_spec in Hall. contradiction.
Qed.

Lemma has_all_keys_cases task_def line :
  has_all_keys task_def line ∨ ¬ has_all_keys task_def line.
Proof.
  unfold has_all_keys.
  destruct (all_in line (Prompts.prompt_inputs task_def
                         ++ Prompts.metadata task_def)) eqn:Hall.
  - left. by apply all_in_spec.
  - right. intros H%all_in_spec. congruence.
Qed.

(** A list with a record that lacks a key splits at the first such record. *)
Lemma first_invalid_record task_def (data : list (gmap string string)) :
  ¬ Forall (has_all_keys task_def) data →
  ∃ pre bad post,
    data = pre ++ bad :: post
    ∧ Forall (has_all_keys task_def) pre ∧ ¬ has_all_keys task_def bad.
Proof.
  induction data as [|line data IH]; intros Hnot.
  - exfalso. apply Hnot. constructor.
  - destruct (has_all_keys_cases task_def line) as [Hline|Hline].
    + destruct IH as (pre & bad & post & -> & Hpre & Hbad).
      { intros Hall. apply Hnot. by constructor. }
      exists (line :: pre), bad, post. split; [reflexivity|].
      split; [by constructor | assumption].
    + exists [], line, data. split; [reflexivity|].
      split; [constructor | assumption].
Qed.

(** [generate_data] hands the records on unchanged and in order; at the
    first record that lacks a key of the task's prompt inputs or metadata it
    raises AssertionError, after the records before it. *)
Theorem generate_data_checked task_type task_def
    (data : list (gmap string string)) :
  Prompts.POOL !! task_type = Some task_def →
  (Forall (has_all_keys task_def) data →
   Prompts.generate_data data task_type = (data, None))
  ∧ (∀ pre bad post,
       data = pre ++ bad :: post →
       Forall (has_all_keys task_def) pre →
       ¬ has_all_keys task_def bad →
       Prompts.generate_data data task_type = (pre, Some AssertionError)).
Proof.
  intros Hpool. split; [by apply generate_data_valid|].
  intros pre bad post -> Hpre Hbad.
  unfold Prompts.generate_data. rewrite Hpool.
  induction Hpre as [|line pre Hline _ IH]; simpl.
  - by rewrite checked_invalid.
  - rewrite checked_valid by assumption. rewrite IH. reflexivity.
Qed.

Lemma generate_data_checked_witness :
  Prompts.generate_data [sample_record; sample_record] "qa_pointwise"
  = ([sample_record; sample_record], None)
  ∧ Prompts.generate_data [sample_record; record_without_qid; sample_record]
      "qa_pointwise"
    = ([sample_record], Some AssertionError).
Proof.
  assert (Hsample : has_all_keys Prompts.qa_pointwise sample_record)
    by (apply all_in_spec; reflexivity).
  split.
  - apply (generate_data_checked "qa_pointwise" Prompts.qa_pointwise
             [sample_record; sample_record]); [reflexivity|].
    repeat (apply Forall_cons; split; [exact Hsample|]). by apply Forall_nil.
  - apply (generate_data_checked "qa_pointwise" Prompts.qa_pointwise
             [sample_record; record_without_qid; sample_record] eq_refl)
      with (pre := [sample_record]) (bad := record_without_qid)
           (post := [sample_record]).
    + reflexivity.
    + repeat (apply Forall_cons; split; [exact Hsample|]). by apply Forall_nil.
    + intros H%all_in_spec. discriminate H.
Defined.

(** [generate_prompts] and [generate_data] keep in step on any records and
    any task type: they yield the same number of items and end the same
    way, so neither runs ahead of the other when they are zipped. *)
Theorem generators_in_step (data : list (gmap string string)) task_type :
  length (Prompts.generate_prompts data task_type).1
  = length (Prompts.generate_data data task_type).1
  ∧ (Prompts.generate_prompts data task_type).2
    = (Prompts.generate_data data task_type).2.
Proof.
  unfold Prompts.generate_prompts, Prompts.generate_data.
  destruct (Prompts.POOL !! task_type) as [task_def|] eqn:Hpool;
    [|split; reflexivity].
  pose proof (POOL_templates _ _ Hpool) as Hfields.
  induction data as [|line data [IHlen IHend]]; [split; reflexivity|].
  simpl. destruct (has_all_keys_cases task_def line) as [Hline|Hline].
  - destruct (prompt_of_valid _ _ Hfields Hline) as (p & -> & _).
    rewrite checked_valid by assumption.
    destruct (gen_for (Prompts.prompt_of task_def) data),
      (gen_for (Prompts.checked task_def) data).
    simpl in *. split; congruence.
  - rewrite prompt_of_invalid, checked_invalid by assumption.
    split; reflexivity.
Qed.

Section Rows.

Variable re_compile : string → outcome (string → option string).

(** With a pattern that compiles, a pipeline that returns one output per
    input and records that all have the task's keys, the loop of the
    notebook ends normally with one row per record, in record order; a row
    holds the record's metadata and prompt inputs, no other field of the
    record, and the judgment of the output at the place of the prompt
    formatted from that record. *)
Theorem outputs_one_row_per_record self task_type task_def
    (data : list (gmap string string)) batch_size :
  Phi3Evaluator.pattern_compiles re_compile self →
  answers_each_input self →
  Prompts.POOL !! task_type = Some task_def →
  Forall (has_all_keys task_def) data →
  ∃ prompts rows,
    Forall2 (formatted_prompt task_def) data prompts
    ∧ Prompts.outputs re_compile self data task_type batch_size = (rows, None)
    ∧ Forall2
        (λ line row,
           ∀ key, Prompts.fields row !! key
                  = if decide (key ∈ Prompts.metadata task_def
                                     ++ Prompts.prompt_inputs task_def)
                    then line !! key else None)
        data rows
    ∧ Forall2
        (λ output row,
           Phi3Evaluator.judge re_compile self output
           = Ok (Prompts.LLM_raw_response row, Prompts.LLM_mapped_response row,
                 Prompts.LLM_agreement row))
        (Phi3Evaluator.pipeline_outputs self prompts
           (Prompts.max_output_tokens task_def) batch_size)
        rows.
Proof. apply outputs_rows. Qed.

(** One record that lacks a key leaves [outputs] empty: [__call__] draws all
    the prompts before it calls the pipeline, so the AssertionError comes
    before the first row, also for the records ahead of the bad one. *)
Theorem outputs_all_or_nothing self task_type task_def
    (data : list (gmap string string)) batch_size :
  Prompts.POOL !! task_type = Some task_def →
  ¬ Forall (has_all_keys task_def) data →
  Prompts.outputs re_compile self data task_type batch_size
  = ([], Some AssertionError).
Proof.
  intros Hpool Hnot.
  destruct (first_invalid_record _ _ Hnot) as (pre & bad & post & -> & Hpre & Hbad).
  unfold Prompts.outputs. rewrite Hpool.
  rewrite (judged_invalid_record re_compile self task_type task_def)
    by assumption.
  reflexivity.
Qed.

End Rows.

Lemma outputs_one_row_per_record_witness :
  let texts := ["Relevant"; "not relevant"; "Relevant"] in
  let self := qa_evaluator texts in
  let data := [sample_record; <["qid" := "89786"]> sample_record] in
  ∃ prompts rows,
    Forall2 (formatted_prompt Prompts.qa_pointwise) data prompts
    ∧ Prompts.outputs Re.compile_ignorecase self data "qa_pointwise" 2
      = (rows, None)
    ∧ Forall2
        (λ line row,
           ∀ key, Prompts.fields row !! key
                  = if decide (key ∈ Prompts.metadata Prompts.qa_pointwise
                                     ++ Prompts.prompt_inputs Prompts.qa_pointwise)
                    then line !! key else None)
        data rows
    ∧ Forall2
        (λ output row,
           Phi3Evaluator.judge Re.compile_ignorecase self output
           = Ok (Prompts.LLM_raw_response row, Prompts.LLM_mapped_response row,
                 Prompts.LLM_agreement row))
        (Phi3Evaluator.pipeline_outputs self prompts 4 2) rows.
Proof.
  intros texts self data.
  apply (outputs_one_row_per_record Re.compile_ignorecase self
           "qa_pointwise" Prompts.qa_pointwise data 2).
  - by eexists.
  - apply scripted_answers_each_input.
  - reflexivity.
  - repeat (apply Forall_cons; split; [apply all_in_spec; reflexivity|]).
    by apply Forall_nil.
Defined.

Lemma outputs_all_or_nothing_witness :
  Prompts.outputs Re.compile_ignorecase (qa_evaluator ["Relevant"])
    [sample_record; record_without_qid; sample_record] "qa_pointwise" 2
  = ([], Some AssertionError).
Proof.
  apply (outputs_all_or_nothing Re.compile_ignorecase (qa_evaluator ["Relevant"])
           "qa_pointwise" Prompts.qa_pointwise); [reflexivity|].
  intros Hall. apply Forall_cons in Hall as [_ Hall].
  apply Forall_cons in Hall as [Hbad%all_in_spec _]. discriminate Hbad.
Defined.

(** ** The prompt of the playground clients *)

(** The loop adds the pieces of the hits in result order. *)
Lemma add_contexts_pieces fields context results pieces :
  Forall2 (λ hit piece, Playground.hit_context fields hit
                        = Playground.Return piece) results pieces →
  Playground.add_contexts fields context results
  = Playground.Return (context +:+ foldr String.append "" pieces).
Proof.
  intros Hall. revert context.
  induction Hall as [|hit piece results pieces Hpiece _ IH]; intros context; simpl.
  - by rewrite append_empty_r.
  - rewrite Hpiece. cbn. rewrite IH. by rewrite append_assoc.
Qed.

Lemma add_contexts_throws fields context pre bad post e :
  Forall (λ hit, ∃ piece, Playground.hit_context fields hit
                          = Playground.Return piece) pre →
  Playground.hit_context fields bad = Playground.Throw e →
  Playground.add_contexts fields context (pre ++ bad :: post)
  = Playground.Throw e.
Proof.
  intros Hpre Hbad. revert context.
  induction Hpre as [|hit pre [piece Hpiece] _ IH]; intros context; simpl.
  - by rewrite Hbad.
  - rewrite Hpiece. cbn. apply IH.
Qed.

Lemma inner_texts_all inner texts :
  Forall2 (λ inner_hit text,
             Playground.inner_source inner_hit !! "text" = Some text)
    inner texts →
  Playground.inner_texts inner = Playground.Return texts.
Proof.
  induction 1 as [|inner_hit text inner texts Htext _ IH]; simpl.
  - reflexivity.
  - by rewrite Htext, IH.
Qed.

Lemma create_prompt_pieces fields question results pieces :
  Forall2 (λ hit piece, Playground.hit_context fields hit
                        = Playground.Return piece) results pieces →
  Playground.create_prompt fields question results
  = Playground.Return
      (Playground.prompt_text (foldr String.append "" pieces) question).
Proof.
  intros Hall. unfold Playground.create_prompt.
  rewrite (add_contexts_pieces fields "" results pieces Hall). reflexivity.
Qed.

Lemma foldr_lines (texts : list string) :
  foldr String.append ""
    ((λ text, text +:+ String (ascii_of_nat 10) "") <$> texts)
  = foldr (λ text context, text +:+ String (ascii_of_nat 10) context) "" texts.
Proof.
  induction texts as [|text texts IH]; [reflexivity|].
  rewrite fmap_cons. cbn [foldr]. rewrite IH, append_assoc. reflexivity.
Qed.

(** For hits without inner hits under their path, each from an index of the
    table and with the table's first field in its source, [create_prompt]
    returns the prompt whose context is the texts of the hits in result
    order, each followed by a newline, and whose question is the question as
    given. *)
Theorem create_prompt_plain_hits fields question results texts :
  Forall2
    (λ hit text,
       ∃ field others,
         fields !! Playground._index hit = Some (field :: others)
         ∧ Playground.inner_hits hit
             ≫= (λ found, found !! (Playground._index hit +:+ "." +:+ field))
           = None
         ∧ Playground._source hit !! field = Some text)
    results texts →
  Playground.create_prompt fields question results
  = Playground.Return
      (Playground.prompt_text
         (foldr (λ text context, text +:+ String (ascii_of_nat 10) context)
            "" texts)
         question).
Proof.
  intros Hall. rewrite <- foldr_lines.
  apply create_prompt_pieces.
  - apply Forall2_fmap_r. eapply Forall2_impl; [exact Hall|].
    intros hit text (field & others & Hfield & Hinner & Htext).
    unfold Playground.hit_context, Playground.first_source_field.
    rewrite Hfield. cbn. rewrite Hinner, Htext. reflexivity.
Qed.

Lemma create_prompt_plain_hits_witness :
  let first := {| Playground._index := "bm25-index";
                  Playground._source := {[ "text" := "Elasticsearch is a search engine." ]};
                  Playground.inner_hits := None |} in
  let second := {| Playground._index := "bm25-index";
                   Playground._source := {[ "text" := "Kibana draws charts." ]};
                   Playground.inner_hits := Some ∅ |} in
  Playground.create_prompt Playground.index_source_fields "what is this?"
    [first; second]
  = Playground.Return
      (Playground.prompt_text
         ("Elasticsearch is a search engine." +:+ String (ascii_of_nat 10)
            ("Kibana draws charts." +:+ String (ascii_of_nat 10) ""))
         "what is this?").
Proof.
  intros first second.
  apply (create_prompt_plain_hits Playground.index_source_fields "what is this?"
           [first; second]
           ["Elasticsearch is a search engine."; "Kibana draws charts."]).
  repeat constructor; exists "text", []; repeat split.
Defined.

(** The first hit that cannot be read decides the exception: a hit from an
    index that is not in the table raises TypeError, whatever else the hit
    holds, and a hit of a known index without inner hits under its path and
    without the field in its source raises KeyError. *)
Theorem create_prompt_first_bad_hit fields question pre bad post :
  Forall (λ hit, ∃ piece, Playground.hit_context fields hit
                          = Playground.Return piece) pre →
  (fields !! Playground._index bad = None →
   Playground.create_prompt fields question (pre ++ bad :: post)
   = Playground.Throw Playground.TypeError)
  ∧ (∀ field others,
       fields !! Playground._index bad = Some (field :: others) →
       Playground.inner_hits bad
         ≫= (λ found, found !! (Playground._index bad +:+ "." +:+ field))
       = None →
       Playground._source bad !! field = None →
       Playground.create_prompt fields question (pre ++ bad :: post)
       = Playground.Throw Playground.KeyError).
Proof.
  intros Hpre. unfold Playground.create_prompt. split.
  - intros Hidx. rewrite (add_contexts_throws _ _ _ _ _ Playground.TypeError);
      [reflexivity | assumption |].
    unfold Playground.hit_context, Playground.first_source_field.
    by rewrite Hidx.
  - intros field others Hidx Hinner Hsrc.
    rewrite (add_contexts_throws _ _ _ _ _ Playground.KeyError);
      [reflexivity | assumption |].
    unfold Playground.hit_context, Playground.first_source_field.
    rewrite Hidx. cbn. rewrite Hinner, Hsrc. reflexivity.
Qed.

Lemma create_prompt_first_bad_hit_witness :
  let good := {| Playground._index := "bm25-index";
                 Playground._source := {[ "text" := "Elasticsearch is a search engine." ]};
                 Playground.inner_hits := None |} in
  let other_index := {| Playground._index := "vector-index";
                        Playground._source := {[ "text" := "Kibana draws charts." ]};
                        Playground.inner_hits := None |} in
  let no_text := {| Playground._index := "bm25-index";
                    Playground._source := {[ "title" := "Kibana" ]};
                    Playground.inner_hits := None |} in
  Playground.create_prompt Playground.index_source_fields "what is this?"
    [good; other_index; good]
  = Playground.Throw Playground.TypeError
  ∧ Playground.create_prompt Playground.index_source_fields "what is this?"
      [good; no_text; good]
    = Playground.Throw Playground.KeyError.
Proof.
  intros good other_index no_text.
  assert (Hgood : Forall (λ hit, ∃ piece,
                     Playground.hit_context Playground.index_source_fields hit
                     = Playground.Return piece) [good])
    by (repeat constructor; eexists; reflexivity).
  split.
  - by apply (create_prompt_first_bad_hit Playground.index_source_fields
                "what is this?" [good] other_index [good] Hgood).
  - by apply (create_prompt_first_bad_hit Playground.index_source_fields
                "what is this?" [good] no_text [good] Hgood) with "text" [].
Defined.

(** A hit with inner hits under its path contributes their texts joined by
    the separator line and nothing of its own source, and no newline is put
    after it: the contexts of such hits follow one another directly. *)
Theorem create_prompt_inner_hits fields question results groups :
  Forall2
    (λ hit texts,
       ∃ field others found inner,
         fields !! Playground._index hit = Some (field :: others)
         ∧ Playground.inner_hits hit = Some found
         ∧ found !! (Playground._index hit +:+ "." +:+ field) = Some inner
         ∧ Forall2 (λ inner_hit text,
                      Playground.inner_source inner_hit !! "text" = Some text)
             inner texts)
    results groups →
  Playground.create_prompt fields question results
  = Playground.Return
      (Playground.prompt_text
         (foldr String.append "" (str_join Playground.separator <$> groups))
         question).
Proof.
  intros Hall. apply create_prompt_pieces.
  apply Forall2_fmap_r. eapply Forall2_impl; [exact Hall|].
  intros hit texts (field & others & found & inner & Hfield & Hfound & Hpath
                    & Htexts).
  unfold Playground.hit_context, Playground.first_source_field.
  rewrite Hfield. cbn. rewrite Hfound. cbn. rewrite Hpath.
  rewrite (inner_texts_all _ _ Htexts). reflexivity.
Qed.

Lemma create_prompt_inner_hits_witness :
  let passage text := {| Playground.inner_source := {[ "text" := text ]} |} in
  let hit_of inner :=
    {| Playground._index := "bm25-index";
       Playground._source := ∅;
       Playground.inner_hits := Some {[ "bm25-index.text" := inner ]} |} in
  Playground.create_prompt Playground.index_source_fields "what is this?"
    [hit_of [passage "one"; passage "two"]; hit_of [passage "three"]]
  = Playground.Return
      (Playground.prompt_text
         ("one" +:+ Playground.separator +:+ "two" +:+ "three")
         "what is this?").
Proof.
  intros passage hit_of.
  apply (create_prompt_inner_hits Playground.index_source_fields "what is this?"
           [hit_of [passage "one"; passage "two"]; hit_of [passage "three"]]
           [["one"; "two"]; ["three"]]).
  repeat (apply Forall2_cons; split); try apply Forall2_nil_2.
  - exists "text", [], {[ "bm25-index.text" := [passage "one"; passage "two"] ]},
      [passage "one"; passage "two"].
    repeat split. repeat constructor.
  - exists "text", [], {[ "bm25-index.text" := [passage "three"] ]},
      [passage "three"].
    repeat split. repeat constructor.
Defined.

(** ** What reaches the prompt *)

Lemma prompt_of_agree task_def (line1 line2 : gmap string string) :
  has_all_keys task_def line1 → has_all_keys task_def line2 →
  (∀ key, key ∈ Prompts.prompt_inputs task_def → line1 !! key = line2 !! key) →
  Prompts.prompt_of task_def line1 = Prompts.prompt_of task_def line2.
Proof.
  intros H1 H2 Hagree. unfold Prompts.prompt_of.
  pose proof H1 as Hall1. pose proof H2 as Hall2.
  apply all_in_spec in Hall1. apply all_in_spec in Hall2.
  rewrite Hall1, Hall2.
  apply Forall_app in H1 as [Hin1 _]. apply Forall_app in H2 as [Hin2 _].
  destruct (dict_of_keys_ok line1 _ ∅ Hin1) as (kw1 & -> & Hkw1).
  destruct (dict_of_keys_ok line2 _ ∅ Hin2) as (kw2 & -> & Hkw2).
  assert (kw1 = kw2) as ->; [|reflexivity].
  apply map_eq. intros key. rewrite Hkw1, Hkw2.
  destruct (decide (key ∈ Prompts.prompt_inputs task_def)); [auto | reflexivity].
Qed.

(** The prompts depend on the prompt inputs of the records only: records
    that agree on them get the same prompts, whatever their metadata (the
    human judgment among it) and their other fields hold. *)
Theorem generate_prompts_only_prompt_inputs task_type task_def
    (data1 data2 : list (gmap string string)) :
  Prompts.POOL !! task_type = Some task_def →
  Forall (has_all_keys task_def) data1 →
  Forall (has_all_keys task_def) data2 →
  Forall2
    (λ line1 line2 : gmap string string,
       ∀ key, key ∈ Prompts.prompt_inputs task_def → line1 !! key = line2 !! key)
    data1 data2 →
  Prompts.generate_prompts data1 task_type
  = Prompts.generate_prompts data2 task_type.
Proof.
  intros Hpool Hv1 Hv2 Hagree. unfold Prompts.generate_prompts. rewrite Hpool.
  induction Hagree as [|line1 line2 data1 data2 Hline _ IH]; [reflexivity|].
  apply Forall_cons in Hv1 as [H1 Hv1]. apply Forall_cons in Hv2 as [H2 Hv2].
  simpl. rewrite (prompt_of_agree task_def line1 line2) by assumption.
  rewrite (IH Hv1 Hv2). reflexivity.
Qed.

Lemma generate_prompts_only_prompt_inputs_witness :
  Prompts.generate_prompts [sample_record] "qa_pointwise"
  = Prompts.generate_prompts
      [<["positive_text" := "A definition."]>
         (<["human_judgment" := "Relevant"]> sample_record)]
      "qa_pointwise".
Proof.
  apply (generate_prompts_only_prompt_inputs "qa_pointwise" Prompts.qa_pointwise).
  - reflexivity.
  - apply Forall_cons; split; [apply all_in_spec; reflexivity | by apply Forall_nil].
  - apply Forall_cons; split; [apply all_in_spec; reflexivity | by apply Forall_nil].
  - apply Forall2_cons; split; [|apply Forall2_nil_2].
    intros key Hkey.
    repeat (apply elem_of_cons in Hkey as [->|Hkey]; [reflexivity|]).
    inversion Hkey.
Defined.
